(** * GoldenCity Memo API: the note store

    A shallow embedding of [app/models.py] and [app/storage.py] and the
    properties of the store that the specification states, followed by
    the request handlers of [app/routes.py], the store singleton of
    [app/dependencies.py] and the settings of [app/config.py].

    Python objects are mutable and are handled by reference, so the
    embedding keeps an object heap: a [Note] lives in a heap cell, the
    store's [_notes] list holds references to cells, and every operation
    that returns a note returns the reference it found.  The wall clock
    ([datetime.now(UTC)]) and the identifier generator ([uuid4()]) are
    oracles of the world: each call consumes the next reading.  A raised
    exception is the result [None].  The calls to the logger change
    nothing of the store and are left out. *)

From Stdlib Require Import ZArith NArith Lia Permutation Sorted Ascii.
From stdpp Require Import base option list strings sorting gmap.

Local Open Scope Z_scope.

(** ** Data model ([app/models.py]) *)

(** A UUID is a 128-bit number; a [datetime] is a count of microseconds. *)
Abbreviation UUID := N (only parsing).
Abbreviation datetime := Z (only parsing).

(** A reference to a [Note] object: the index of its heap cell. *)
Abbreviation ref := nat (only parsing).

(** The two fields a [NoteUpdate] carries. *)
Inductive field : Type := Title | Content.

#[global] Instance field_eq_dec : EqDecision field.
Proof. solve_decision. Defined.

(** [title: str = Field(..., min_length=1, max_length=200)] and
    [content: str = Field(..., min_length=1)]; a [string] is the sequence
    of the characters of the text. *)
Definition valid_title (s : string) : bool :=
  (1 <=? String.length s)%nat && (String.length s <=? 200)%nat.

Definition valid_content (s : string) : bool :=
  (1 <=? String.length s)%nat.

Module NoteCreate.
Record t : Type := mk { title : string; content : string }.

(** The model's validation: a [NoteCreate] instance exists only for
    fields that pass it. *)
Definition valid (d : t) : bool :=
  valid_title (title d) && valid_content (content d).
End NoteCreate.

(** The value of a JSON member of a request body, as far as the update
    model distinguishes values. *)
Inductive json : Type :=
  | JNull
  | JString (s : string)
  | JOther.

Module NoteUpdate.
(** [title: str | None = Field(None, ...)], [content: str | None =
    Field(None, ...)], and the set of fields that were given explicitly
    ([model_fields_set]). *)
Record t : Type := mk {
  title : option string;
  content : option string;
  fields_set : list field }.

(** Validation of one [str | None] field with its length bounds. *)
Definition validate_field (ok : string → bool) (v : json)
  : option (option string) :=
  match v with
  | JNull => Some None
  | JString s => if ok s then Some (Some s) else None
  | JOther => None
  end.

(** [NoteUpdate.model_validate(body)]: a member that is absent takes the
    default [None] and stays unset; a member that is present is
    validated and recorded in [fields_set], also when it is [null].  Of
    a repeated member the last occurrence counts. *)
Definition model_validate (body : list (field * json)) : option t :=
  let get f ok :=
    match list_find (λ kv, kv.1 = f) (reverse body) with
    | None => Some (None, [])
    | Some (_, (_, v)) =>
        match validate_field ok v with
        | Some x => Some (x, [f])
        | None => None
        end
    end in
  match get Title valid_title, get Content valid_content with
  | Some (tv, ts), Some (cv, cs) => Some (mk tv cv (ts ++ cs))
  | _, _ => None
  end.

Definition get_field (f : field) (d : t) : option string :=
  match f with
  | Title => title d
  | Content => content d
  end.

(** [model_dump(exclude_unset=True)]: the fields of [fields_set], in
    declaration order, with their values. *)
Definition model_dump_exclude_unset (d : t) : list (field * option string) :=
  (if bool_decide (Title ∈ fields_set d) then [(Title, title d)] else [])
  ++ (if bool_decide (Content ∈ fields_set d) then [(Content, content d)] else []).
End NoteUpdate.

Module Note.
(** [title] and [content] are declared [str], but assignment is not
    validated ([validate_assignment] is off), so a cell can come to hold
    [None]: the fields are modelled as optional strings. *)
Record t : Type := mk {
  title : option string;
  content : option string;
  id : UUID;
  created_at : datetime;
  updated_at : datetime }.

Definition set_field (f : field) (v : option string) (n : t) : t :=
  match f with
  | Title => mk v (content n) (id n) (created_at n) (updated_at n)
  | Content => mk (title n) v (id n) (created_at n) (updated_at n)
  end.

Definition set_updated_at (u : datetime) (n : t) : t :=
  mk (title n) (content n) (id n) (created_at n) u.

Definition get_field (f : field) (n : t) : option string :=
  match f with
  | Title => title n
  | Content => content n
  end.
End Note.

#[global] Instance Note_eq_dec : EqDecision Note.t.
Proof. solve_decision. Defined.

(** ** The world: object heap, store and oracles *)

Record World : Type := mkWorld {
  heap : list Note.t;          (* every Note object ever constructed *)
  _notes : list ref;           (* NoteStorage._notes *)
  clock : nat → datetime;      (* the n-th reading of datetime.now(UTC) *)
  ticks : nat;                 (* readings taken so far *)
  uuids : nat → UUID;          (* the n-th result of uuid4() *)
  drawn : nat }.               (* identifiers drawn so far *)

(** A computation runs on a world and returns a value and the new world,
    or raises ([None]). *)
Definition M (A : Type) : Type := World → option (A * World).

Definition ret {A} (a : A) : M A := λ w, Some (a, w).

Definition bind {A B} (m : M A) (k : A → M B) : M B :=
  λ w, match m w with
       | Some (a, w') => k a w'
       | None => None
       end.

Definition raise {A} : M A := λ _, None.

Notation "'do' x <- m ; k" := (bind m (λ x, k))
  (at level 10, x name, m at level 100, k at level 200).
Notation "'run' m ; k" := (bind m (λ _, k))
  (at level 10, m at level 100, k at level 200).

(** [datetime.now(UTC)] *)
Definition now : M datetime :=
  λ w, Some (clock w (ticks w),
             mkWorld (heap w) (_notes w) (clock w) (S (ticks w)) (uuids w) (drawn w)).

(** [uuid4()] *)
Definition uuid4 : M UUID :=
  λ w, Some (uuids w (drawn w),
             mkWorld (heap w) (_notes w) (clock w) (ticks w) (uuids w) (S (drawn w))).

(** Allocation of a new object, reading and writing of a cell. *)
Definition alloc (n : Note.t) : M ref :=
  λ w, Some (length (heap w),
             mkWorld (heap w ++ [n]) (_notes w) (clock w) (ticks w) (uuids w) (drawn w)).

Definition deref (l : ref) : M Note.t :=
  λ w, match heap w !! l with
       | Some n => Some (n, w)
       | None => None
       end.

Definition assign (l : ref) (n : Note.t) : M unit :=
  λ w, match heap w !! l with
       | Some _ =>
           Some (tt, mkWorld (<[l := n]> (heap w)) (_notes w) (clock w) (ticks w)
                             (uuids w) (drawn w))
       | None => None
       end.

(** Reading and writing of [self._notes]. *)
Definition read_notes : M (list ref) := λ w, Some (_notes w, w).

Definition write_notes (ls : list ref) : M unit :=
  λ w, Some (tt, mkWorld (heap w) ls (clock w) (ticks w) (uuids w) (drawn w)).

(** [setattr(note, field, value)] and [note.updated_at = value]. *)
Definition setattr (l : ref) (f : field) (v : option string) : M unit :=
  do n <- deref l ; assign l (Note.set_field f v n).

Definition set_updated_at (l : ref) (u : datetime) : M unit :=
  do n <- deref l ; assign l (Note.set_updated_at u n).

Fixpoint for_each {A} (body : A → M unit) (xs : list A) : M unit :=
  match xs with
  | [] => ret tt
  | x :: xs' => run body x ; for_each body xs'
  end.

(** [Note(title=..., content=...)]: the given fields are validated, then
    the default factories run in declaration order: [id], [created_at],
    [updated_at].  The two timestamps are two readings of the clock. *)
Definition Note_new (title content : string) : M ref :=
  if valid_title title && valid_content content then
    do i <- uuid4 ;
    do c <- now ;
    do u <- now ;
    alloc (Note.mk (Some title) (Some content) i c u)
  else raise.

(** ** The store ([app/storage.py]) *)

(** [NoteStorage()] in a world with the given oracles. *)
Definition init (clk : nat → datetime) (ids : nat → UUID) : World :=
  mkWorld [] [] clk 0 ids 0.

(** [create]: construct the note from the dumped fields, append it,
    return it. *)
Definition create (note_data : NoteCreate.t) : M ref :=
  do note <- Note_new (NoteCreate.title note_data) (NoteCreate.content note_data) ;
  do ls <- read_notes ;
  run write_notes (ls ++ [note]) ;
  ret note.

(** The keys [x.created_at] of the elements, computed before sorting. *)
Fixpoint decorate (ls : list ref) : M (list (datetime * ref)) :=
  match ls with
  | [] => ret []
  | l :: ls' =>
      do n <- deref l ;
      do ks <- decorate ls' ;
      ret ((Note.created_at n, l) :: ks)
  end.

(** A stable ascending sort on the keys (insertion sort: an element goes
    before the first element whose key is not smaller). *)
Fixpoint insert_key (x : datetime * ref) (l : list (datetime * ref))
  : list (datetime * ref) :=
  match l with
  | [] => [x]
  | y :: l' => if x.1 <=? y.1 then x :: y :: l' else y :: insert_key x l'
  end.

Definition stable_sort (l : list (datetime * ref)) : list (datetime * ref) :=
  foldr insert_key [] l.

(** [sorted(xs, key=..., reverse=rev)]: a new list.  With [reverse] the
    list is reversed, sorted and reversed again, which keeps elements of
    equal key in their original order. *)
Definition sorted (rev : bool) (ks : list (datetime * ref)) : list ref :=
  (if rev then reverse (stable_sort (reverse ks)) else stable_sort ks).*2.

(** [get_all] *)
Definition get_all : M (list ref) :=
  do ls <- read_notes ;
  do ks <- decorate ls ;
  ret (sorted true ks).

(** [next((note for note in ls if note.id == note_id), None)] *)
Fixpoint first_with_id (note_id : UUID) (ls : list ref) : M (option ref) :=
  match ls with
  | [] => ret None
  | l :: ls' =>
      do n <- deref l ;
      if N.eqb (Note.id n) note_id then ret (Some l) else first_with_id note_id ls'
  end.

(** [get_by_id].  The test [if note] that follows the look-up in the
    source chooses between two log lines only; there as in [update] and
    [delete] it is a test for [None], a model instance being never
    falsy. *)
Definition get_by_id (note_id : UUID) : M (option ref) :=
  do ls <- read_notes ;
  first_with_id note_id ls.

(** [update] *)
Definition update (note_id : UUID) (note_data : NoteUpdate.t) : M (option ref) :=
  do note <- get_by_id note_id ;
  match note with
  | None => ret None
  | Some l =>
      run for_each (λ fv, setattr l fv.1 fv.2)
                   (NoteUpdate.model_dump_exclude_unset note_data) ;
      do t <- now ;
      run set_updated_at l t ;
      ret (Some l)
  end.

(** [a == b] on the elements of a list, as [list.remove] compares them:
    the same object, or two models with equal fields. *)
Definition py_eq (a b : ref) : M bool :=
  if decide (a = b) then ret true
  else do na <- deref a ; do nb <- deref b ; ret (bool_decide (na = nb)).

(** [ls.remove(x)]: drop the first element equal to [x]; [ValueError]
    when there is none. *)
Fixpoint list_remove (x : ref) (ls : list ref) : M (list ref) :=
  match ls with
  | [] => raise
  | e :: ls' =>
      do same <- py_eq e x ;
      if same then ret ls'
      else (do r <- list_remove x ls' ; ret (e :: r))
  end.

(** [delete] *)
Definition delete (note_id : UUID) : M bool :=
  do note <- get_by_id note_id ;
  match note with
  | Some l =>
      do ls <- read_notes ;
      do ls' <- list_remove l ls ;
      run write_notes ls' ;
      ret true
  | None => ret false
  end.

(** [clear] *)
Definition clear : M unit := write_notes [].

(** A sequence of creates, in order. *)
Fixpoint create_all (ds : list NoteCreate.t) : M (list ref) :=
  match ds with
  | [] => ret []
  | d :: ds' =>
      do l <- create d ;
      do ls <- create_all ds' ;
      ret (l :: ls)
  end.

(** The operations of the store, and the worlds they lead to. *)
Inductive op : Type :=
  | Create (d : NoteCreate.t)
  | GetAll
  | GetById (i : UUID)
  | Update (i : UUID) (d : NoteUpdate.t)
  | Delete (i : UUID)
  | Clear.

Definition run_op (o : op) : M unit :=
  match o with
  | Create d => run create d ; ret tt
  | GetAll => run get_all ; ret tt
  | GetById i => run get_by_id i ; ret tt
  | Update i d => run update i d ; ret tt
  | Delete i => run delete i ; ret tt
  | Clear => clear
  end.

Inductive reachable (w0 : World) : World → Prop :=
  | reach_init : reachable w0 w0
  | reach_step w o w' :
      reachable w0 w → run_op o w = Some (tt, w') → reachable w0 w'.

(** ** Predicates on worlds *)

(** [l] is in the store and its cell holds [n]. *)
Definition stored (w : World) (l : ref) (n : Note.t) : Prop :=
  l ∈ _notes w ∧ heap w !! l = Some n.

(** Some stored note has identifier [i]. *)
Definition present (w : World) (i : UUID) : Prop :=
  ∃ l n, stored w l n ∧ Note.id n = i.

(** The store holds no dangling reference. *)
Definition allocated (w : World) : Prop :=
  ∀ l, l ∈ _notes w → is_Some (heap w !! l).

(** The data-model invariant: identifiers are unique among stored notes
    (and no object is stored twice). *)
Record store_ok (w : World) : Prop := {
  ok_allocated : allocated w;
  ok_nodup : NoDup (_notes w);
  ok_unique : ∀ l1 l2 n1 n2,
      stored w l1 n1 → stored w l2 n2 → Note.id n1 = Note.id n2 → l1 = l2 }.

(** A clock that never goes back. *)
Definition monotone (clk : nat → datetime) : Prop :=
  ∀ i j, (i ≤ j)%nat → clk i ≤ clk j.

(** Both timestamps of [n] are past readings of the clock, [created_at]
    not the later one. *)
Definition stamped (w : World) (n : Note.t) : Prop :=
  ∃ i j, (i ≤ j < ticks w)%nat
         ∧ Note.created_at n = clock w i ∧ Note.updated_at n = clock w j.

Definition clock_ok (w : World) : Prop :=
  monotone (clock w) ∧ ∀ l n, heap w !! l = Some n → stamped w n.

(** Every object got the identifier drawn for it. *)
Definition ids_drawn (w : World) : Prop :=
  length (heap w) = drawn w
  ∧ ∀ l n, heap w !! l = Some n → Note.id n = uuids w l.

(** What the holder of a list of references sees through it. *)
Definition view (w : World) (ls : list ref) : list (option Note.t) :=
  (λ l, heap w !! l) <$> ls.

(** [a] was not created before [b], for allocated references. *)
Definition not_older (w : World) (a b : ref) : Prop :=
  ∃ na nb, heap w !! a = Some na ∧ heap w !! b = Some nb
           ∧ Note.created_at nb ≤ Note.created_at na.

(** The note of [l] was created at [t]. *)
Definition created_at_is (w : World) (t : datetime) (l : ref) : Prop :=
  Note.created_at <$> heap w !! l = Some t.

#[global] Instance created_at_is_dec w t l : Decision (created_at_is w t l).
Proof. unfold created_at_is. apply _. Defined.

(** ** Auxiliary definitions for the statements *)

(** Orders on decorated elements, by key. *)
Definition key_le : relation (datetime * ref) := λ x y, x.1 ≤ y.1.

Definition key_lt : relation (datetime * ref) := λ x y, x.1 < y.1.

Definition key_ge : relation (datetime * ref) := λ x y, y.1 ≤ x.1.

(** A decorated element carries the creation time of its note. *)
Definition keyed (w : World) (x : datetime * ref) : Prop :=
  created_at_is w x.1 x.2.

Definition new_note (d : NoteCreate.t) (w : World) : Note.t :=
  Note.mk (Some (NoteCreate.title d)) (Some (NoteCreate.content d))
          (uuids w (drawn w)) (clock w (ticks w)) (clock w (S (ticks w))).

Definition after_create (d : NoteCreate.t) (w : World) : World :=
  mkWorld (heap w ++ [new_note d w]) (_notes w ++ [length (heap w)])
          (clock w) (S (S (ticks w))) (uuids w) (S (drawn w)).

(** The fields of [n] after the assignments of the dumped fields. *)
Definition merged (d : NoteUpdate.t) (n : Note.t) : Note.t :=
  Note.mk
    (if bool_decide (Title ∈ NoteUpdate.fields_set d)
     then NoteUpdate.title d else Note.title n)
    (if bool_decide (Content ∈ NoteUpdate.fields_set d)
     then NoteUpdate.content d else Note.content n)
    (Note.id n) (Note.created_at n) (Note.updated_at n).

Definition after_update (d : NoteUpdate.t) (l : ref) (n : Note.t) (w : World)
  : World :=
  mkWorld (<[l := Note.set_updated_at (clock w (ticks w)) (merged d n)]> (heap w))
          (_notes w) (clock w) (S (ticks w)) (uuids w) (drawn w).

Definition after_delete (ls : list ref) (w : World) : World :=
  mkWorld (heap w) ls (clock w) (ticks w) (uuids w) (drawn w).

(** The five ways in which an operation changes the world. *)
Inductive effect (w : World) : World → Prop :=
  | eff_none : effect w w
  | eff_create d : NoteCreate.valid d = true → effect w (after_create d w)
  | eff_update d l n : stored w l n → effect w (after_update d l n w)
  | eff_remove pre l post :
      _notes w = pre ++ l :: post → effect w (after_delete (pre ++ post) w)
  | eff_clear : effect w (after_delete [] w).

Record inv (w : World) : Prop := {
  inv_allocated : allocated w;
  inv_nodup : NoDup (_notes w);
  inv_ids : ids_drawn w;
  inv_stamped : ∀ l n, heap w !! l = Some n → stamped w n }.

(** A clock that advances at every reading, a clock that stands still,
    and identifiers drawn without collision. *)
Definition tick_clock : nat → datetime := Z.of_nat.
Definition frozen_clock : nat → datetime := λ _, 0.
Definition serial_ids : nat → UUID := N.of_nat.

Definition A_B_C : list NoteCreate.t :=
  [NoteCreate.mk "A" "a"; NoteCreate.mk "B" "b"; NoteCreate.mk "C" "c"].

(** The store after creating "A", "B", "C" under the advancing clock. *)
Definition demo : World :=
  mkWorld [Note.mk (Some "A") (Some "a") 0%N 0 1;
           Note.mk (Some "B") (Some "b") 1%N 2 3;
           Note.mk (Some "C") (Some "c") 2%N 4 5]
          [0; 1; 2]%nat tick_clock 6 serial_ids 3.

(** The notes that a sequence of creates constructs, from clock reading
    [t] and identifier draw [u] on. *)
Fixpoint created (clk : nat → datetime) (ids : nat → UUID) (t u : nat)
    (ds : list NoteCreate.t) : list Note.t :=
  match ds with
  | [] => []
  | d :: ds' =>
      Note.mk (Some (NoteCreate.title d)) (Some (NoteCreate.content d))
              (ids u) (clk t) (clk (S t))
      :: created clk ids (S (S t)) (S u) ds'
  end.

Definition after_create_all (ds : list NoteCreate.t) (w : World) : World :=
  mkWorld (heap w ++ created (clock w) (uuids w) (ticks w) (drawn w) ds)
          (_notes w ++ seq (length (heap w)) (length ds))
          (clock w) (ticks w + 2 * length ds) (uuids w) (drawn w + length ds).

(** The store after creating "A", "B", "C" under the clock that stands
    still. *)
Definition frozen_demo : World :=
  mkWorld [Note.mk (Some "A") (Some "a") 0%N 0 0;
           Note.mk (Some "B") (Some "b") 1%N 0 0;
           Note.mk (Some "C") (Some "c") 2%N 0 0]
          [0; 1; 2]%nat frozen_clock 6 serial_ids 3.

(** ** Validation at the boundary ([app/models.py]) *)

(** The value that a request body gives a field: that of its last member
    of that name. *)
Definition member (f : field) (body : list (field * json)) : option json :=
  (λ kv, kv.2.2) <$> list_find (λ kv, kv.1 = f) (reverse body).

(** Validation of a required [str] field with its length bounds. *)
Definition validate_required (ok : string → bool) (v : option json)
  : option string :=
  match v with
  | Some (JString s) => if ok s then Some s else None
  | _ => None
  end.

(** [NoteCreate.model_validate(body)]: both fields are required strings
    within their bounds ([NoteBase]). *)
Definition NoteCreate_model_validate (body : list (field * json))
  : option NoteCreate.t :=
  match validate_required valid_title (member Title body),
        validate_required valid_content (member Content body) with
  | Some t, Some c => Some (NoteCreate.mk t c)
  | _, _ => None
  end.

(** The length bounds of a field. *)
Definition bounds (f : field) : string → bool :=
  match f with
  | Title => valid_title
  | Content => valid_content
  end.

(** A value of type [str | None] within the bounds. *)
Definition within (ok : string → bool) (v : option string) : bool :=
  match v with
  | None => true
  | Some s => ok s
  end.

(** What validation guarantees of a [NoteUpdate] instance. *)
Definition NoteUpdate_valid (d : NoteUpdate.t) : bool :=
  within valid_title (NoteUpdate.title d)
  && within valid_content (NoteUpdate.content d).

(** The same bounds on the fields of a note. *)
Definition Note_within (n : Note.t) : bool :=
  within valid_title (Note.title n) && within valid_content (Note.content n).

(** Operations whose payload is a validated instance, and the worlds
    they lead to. *)
Definition op_valid (o : op) : bool :=
  match o with
  | Create d => NoteCreate.valid d
  | Update _ d => NoteUpdate_valid d
  | _ => true
  end.

Inductive reachable_valid (w0 : World) : World → Prop :=
  | rv_init : reachable_valid w0 w0
  | rv_step w o w' :
      reachable_valid w0 w → op_valid o = true →
      run_op o w = Some (tt, w') → reachable_valid w0 w'.

(** ** Request handlers ([app/routes.py]) *)

(** What a handler raises: [HTTPException(status_code, detail)], or
    another exception. *)
Inductive exn : Type :=
  | HTTPException (status_code : nat) (detail : string)
  | Exception.

(** A handler returns a value in a new world, or raises.  The world at a
    [raise] of the handler itself is kept; the world that an exception of
    the store leaves behind is not followed ([None]). *)
Inductive outcome (A : Type) : Type :=
  | Return (a : A) (w : World)
  | Raise (e : exn) (w : option World).

Arguments Return {A} a w.
Arguments Raise {A} e w.

Definition H (A : Type) : Type := World → outcome A.

(** A call of a method of the store. *)
Definition call {A} (m : M A) : H A :=
  λ w, match m w with
       | Some (a, w') => Return a w'
       | None => Raise Exception None
       end.

Definition hreturn {A} (a : A) : H A := λ w, Return a w.

Definition hraise {A} (e : exn) : H A := λ w, Raise e (Some w).

Definition hbind {A B} (h : H A) (k : A → H B) : H B :=
  λ w, match h w with
       | Return a w' => k a w'
       | Raise e ow => Raise e ow
       end.

Notation "'hdo' x <- h ; k" := (hbind h (λ x, k))
  (at level 10, x name, h at level 100, k at level 200).

(** The two [except] clauses of the handlers. *)
Inductive clause : Type :=
  | except_HTTPException_raise
      (* except HTTPException: raise *)
  | except_Exception_raise_HTTPException (status_code : nat) (detail : string).
      (* except Exception as e: raise HTTPException(...) from e *)

(** What a clause raises for an exception it catches; [HTTPException] is
    a subclass of [Exception]. *)
Definition catches (c : clause) (e : exn) : option exn :=
  match c, e with
  | except_HTTPException_raise, HTTPException s d => Some (HTTPException s d)
  | except_HTTPException_raise, Exception => None
  | except_Exception_raise_HTTPException s d, _ => Some (HTTPException s d)
  end.

(** The clauses are tried in order; an exception that none catches goes
    on. *)
Fixpoint handle (cs : list clause) (e : exn) : exn :=
  match cs with
  | [] => e
  | c :: cs' =>
      match catches c e with
      | Some e' => e'
      | None => handle cs' e
      end
  end.

Definition try_except {A} (body : H A) (cs : list clause) : H A :=
  λ w, match body w with
       | Return a w' => Return a w'
       | Raise e ow => Raise (handle cs e) ow
       end.

(** [create_note] *)
Definition create_note (note : NoteCreate.t) : H ref :=
  try_except
    (hdo created_note <- call (create note) ;
     hreturn created_note)
    [except_Exception_raise_HTTPException 500 "Failed to create note"].

(** [get_notes] *)
Definition get_notes : H (list ref) :=
  try_except
    (hdo notes <- call get_all ;
     hreturn notes)
    [except_Exception_raise_HTTPException 500 "Failed to retrieve notes"].

(** [get_note] *)
Definition get_note (note_id : UUID) : H ref :=
  try_except
    (hdo note <- call (get_by_id note_id) ;
     match note with
     | None => hraise (HTTPException 404 "Note not found")
     | Some l => hreturn l
     end)
    [except_HTTPException_raise;
     except_Exception_raise_HTTPException 500 "Failed to retrieve note"].

(** [update_note] *)
Definition update_note (note_id : UUID) (note_update : NoteUpdate.t) : H ref :=
  try_except
    (hdo note <- call (update note_id note_update) ;
     match note with
     | None => hraise (HTTPException 404 "Note not found")
     | Some l => hreturn l
     end)
    [except_HTTPException_raise;
     except_Exception_raise_HTTPException 500 "Failed to update note"].

(** [delete_note] *)
Definition delete_note (note_id : UUID) : H unit :=
  try_except
    (hdo deleted <- call (delete note_id) ;
     if negb deleted then hraise (HTTPException 404 "Note not found")
     else hreturn tt)
    [except_HTTPException_raise;
     except_Exception_raise_HTTPException 500 "Failed to delete note"].

(** ** The process and its stores ([app/dependencies.py]) *)

(** A process can hold several [NoteStorage] objects, each with its own
    [_notes]; they share the object heap, the clock and the identifier
    generator.  The module global [_storage_instance] is one of them or
    [None]. *)
Record Process : Type := mkProcess {
  storages : list (list ref);
  _storage_instance : option nat;
  p_heap : list Note.t;
  p_clock : nat → datetime;
  p_ticks : nat;
  p_uuids : nat → UUID;
  p_drawn : nat }.

(** The world that a method of the store [s] runs on. *)
Definition world_of (p : Process) (ns : list ref) : World :=
  mkWorld (p_heap p) ns (p_clock p) (p_ticks p) (p_uuids p) (p_drawn p).

(** [s.m(...)] for a store [s] of the process. *)
Definition method {A} (s : nat) (m : M A) : Process → option (A * Process) :=
  λ p, match storages p !! s with
       | None => None
       | Some ns =>
           match m (world_of p ns) with
           | None => None
           | Some (a, w') =>
               Some (a, mkProcess (<[s := _notes w']> (storages p))
                                  (_storage_instance p) (heap w') (clock w')
                                  (ticks w') (uuids w') (drawn w'))
           end
       end.

(** [NoteStorage()] *)
Definition NoteStorage_new (p : Process) : nat * Process :=
  (length (storages p),
   mkProcess (storages p ++ [[]]) (_storage_instance p) (p_heap p)
             (p_clock p) (p_ticks p) (p_uuids p) (p_drawn p)).

Definition set_storage_instance (v : option nat) (p : Process) : Process :=
  mkProcess (storages p) v (p_heap p) (p_clock p) (p_ticks p) (p_uuids p)
            (p_drawn p).

(** [get_storage] *)
Definition get_storage (p : Process) : nat * Process :=
  match _storage_instance p with
  | None =>
      let '(s, p') := NoteStorage_new p in
      (s, set_storage_instance (Some s) p')
  | Some s => (s, p)
  end.

(** [reset_storage] *)
Definition reset_storage (p : Process) : Process :=
  set_storage_instance None p.

(** The stores of a process hold allocated references and share none. *)
Record process_ok (p : Process) : Prop := {
  pok_allocated : ∀ s ns l,
      storages p !! s = Some ns → l ∈ ns → is_Some (p_heap p !! l);
  pok_separate : ∀ s s' ns ns' l,
      s ≠ s' → storages p !! s = Some ns → storages p !! s' = Some ns' →
      l ∈ ns → l ∉ ns' }.

(** ** Settings ([app/config.py]) *)

(** [s.split(sep)] for a separator of one character: the piece before the
    first separator, and the pieces after it. *)
Fixpoint split_aux (sep : Ascii.ascii) (s : string) : string * list string :=
  match s with
  | EmptyString => (EmptyString, [])
  | String c s' =>
      let '(piece, pieces) := split_aux sep s' in
      if Ascii.eqb c sep then (EmptyString, piece :: pieces)
      else (String c piece, pieces)
  end.

Definition split (sep : Ascii.ascii) (s : string) : list string :=
  let '(piece, pieces) := split_aux sep s in piece :: pieces.

(** [os.getenv(key, default)] *)
Definition getenv (environ : gmap string string) (key default : string)
  : string :=
  match environ !! key with
  | Some v => v
  | None => default
  end.

Record Settings : Type := mkSettings {
  API_TITLE : string;
  API_DESCRIPTION : string;
  API_VERSION : string;
  HOST : string;
  PORT : Z;
  ALLOWED_ORIGINS : list string;
  LOG_LEVEL : string;
  LOG_FORMAT : string }.

Section config.
(** Python's [int] on a string; [None] is its [ValueError]. *)
Variable int : string → option Z.

(** [Settings()] *)
Definition Settings_init (environ : gmap string string) : option Settings :=
  let host := getenv environ "HOST" "0.0.0.0" in
  match int (getenv environ "PORT" "8000") with
  | None => None
  | Some port =>
      Some (mkSettings
              "GoldenCity Memo API"
              "A high-performance RESTful API for memo management"
              "1.0.0"
              host
              port
              (split ","%char (getenv environ "ALLOWED_ORIGINS" "*"))
              (getenv environ "LOG_LEVEL" "INFO")
              "%(asctime)s - %(name)s - %(levelname)s - %(message)s")
  end.
End config.

(** The number of occurrences of a character. *)
Fixpoint occurrences (c : Ascii.ascii) (s : string) : nat :=
  match s with
  | EmptyString => 0%nat
  | String c' s' => ((if Ascii.eqb c' c then 1 else 0) + occurrences c s')%nat
  end.

(** A process with two stores that hold one note each, the second one
    being the module global; and the same process after an update of the
    note of the second store. *)
Definition two_stores : Process :=
  mkProcess [[0%nat]; [1%nat]] (Some 1%nat)
            [Note.mk (Some "A") (Some "a") 0%N 0 1;
             Note.mk (Some "B") (Some "b") 1%N 2 3]
            tick_clock 4 serial_ids 2.

Definition two_stores_updated : Process :=
  mkProcess [[0%nat]; [1%nat]] (Some 1%nat)
            [Note.mk (Some "A") (Some "a") 0%N 0 1;
             Note.mk (Some "B2") (Some "b") 1%N 2 4]
            tick_clock 5 serial_ids 2.

(** An environment that sets the allowed origins, a reading of [int] that
    knows the default port, and the settings they give. *)
Definition origins_environ : gmap string string :=
  {[ "ALLOWED_ORIGINS" := "http://localhost:3000,http://localhost:8080" ]}.

Definition int_8000 (text : string) : option Z :=
  if String.eqb text "8000" then Some 8000 else None.

Definition origins_settings : Settings :=
  mkSettings "GoldenCity Memo API"
             "A high-performance RESTful API for memo management" "1.0.0"
             "0.0.0.0" 8000
             ["http://localhost:3000"; "http://localhost:8080"] "INFO"
             "%(asctime)s - %(name)s - %(levelname)s - %(message)s".

(** ** Lists as objects *)

(** A Python list is an object too.  [self._notes] is a reference to one
    list object for the life of the store: [append], [remove] and [clear]
    change that object in place, and nothing rebinds the attribute.
    [sorted] returns a list object of its own.  [lists] holds the content
    of every list object. *)
Record Objects : Type := mkObjects {
  lists : list (list ref);
  self_notes : nat;
  o_heap : list Note.t;
  o_clock : nat → datetime;
  o_ticks : nat;
  o_uuids : nat → UUID;
  o_drawn : nat }.

(** The world of the store, its list being the content of the object
    [self._notes]. *)
Definition store_world (o : Objects) (ns : list ref) : World :=
  mkWorld (o_heap o) ns (o_clock o) (o_ticks o) (o_uuids o) (o_drawn o).

(** A method of the store on the objects: what it does to [_notes] it
    does to the list object, in place. *)
Definition on_objects {A} (m : M A) : Objects → option (A * Objects) :=
  λ o, match lists o !! self_notes o with
       | None => None
       | Some ns =>
           match m (store_world o ns) with
           | None => None
           | Some (a, w') =>
               Some (a, mkObjects (<[self_notes o := _notes w']> (lists o))
                                  (self_notes o) (heap w') (clock w')
                                  (ticks w') (uuids w') (drawn w'))
           end
       end.

(** [get_all] with its result as an object: [sorted] builds a new list
    and the method returns the reference to it. *)
Definition get_all_object : Objects → option (nat * Objects) :=
  λ o, match on_objects get_all o with
       | None => None
       | Some (ls, o') =>
           Some (length (lists o'),
                 mkObjects (lists o' ++ [ls]) (self_notes o') (o_heap o')
                           (o_clock o') (o_ticks o') (o_uuids o') (o_drawn o'))
       end.

(** One call of the store, and what can follow a state. *)
Inductive object_step (o : Objects) : Objects → Prop :=
  | step_op op o' :
      on_objects (run_op op) o = Some (tt, o') → object_step o o'
  | step_list s o' :
      get_all_object o = Some (s, o') → object_step o o'.

Inductive afterwards (o0 : Objects) : Objects → Prop :=
  | afterwards_now : afterwards o0 o0
  | afterwards_step o o' :
      afterwards o0 o → object_step o o' → afterwards o0 o'.

(** What the holder of a reference to a list object sees through it: the
    notes of the list, in order, with their fields. *)
Definition seen (o : Objects) (s : nat) : option (list (option Note.t)) :=
  match lists o !! s with
  | None => None
  | Some ls => Some ((λ l, o_heap o !! l) <$> ls)
  end.

(** The store of [demo] with its list as an object, and the same after
    one listing. *)
Definition demo_objects : Objects :=
  mkObjects [[0; 1; 2]%nat] 0
            [Note.mk (Some "A") (Some "a") 0%N 0 1;
             Note.mk (Some "B") (Some "b") 1%N 2 3;
             Note.mk (Some "C") (Some "c") 2%N 4 5]
            tick_clock 6 serial_ids 3.

Definition demo_listed : Objects :=
  mkObjects [[0; 1; 2]%nat; [2; 1; 0]%nat] 0
            [Note.mk (Some "A") (Some "a") 0%N 0 1;
             Note.mk (Some "B") (Some "b") 1%N 2 3;
             Note.mk (Some "C") (Some "c") 2%N 4 5]
            tick_clock 6 serial_ids 3.

(** ** The monad's equations *)

Ltac munfold :=
  unfold bind, ret, raise, read_notes, write_notes, deref, assign, now,
    uuid4, alloc in *.

Lemma first_with_id_cons i l ls w :
  first_with_id i (l :: ls) w =
  match heap w !! l with
  | None => None
  | Some n => if N.eqb (Note.id n) i then Some (Some l, w)
              else first_with_id i ls w
  end.
Proof.
  simpl. munfold. destruct (heap w !! l) as [n|]; [|done].
  by destruct (N.eqb _ _).
Qed.

Lemma decorate_cons l ls w :
  decorate (l :: ls) w =
  match heap w !! l with
  | None => None
  | Some n =>
      match decorate ls w with
      | Some (ks, w') => Some ((Note.created_at n, l) :: ks, w')
      | None => None
      end
  end.
Proof.
  simpl. munfold. destruct (heap w !! l) as [n|]; [|done].
  by destruct (decorate ls w) as [[ks w']|].
Qed.

(** ** Look-up by identifier *)

Lemma first_with_id_frame i ls w r w' :
  first_with_id i ls w = Some (r, w') → w' = w.
Proof.
  induction ls as [|l ls IH]; [by inversion 1|].
  rewrite first_with_id_cons. destruct (heap w !! l) as [n|]; [|done].
  destruct (N.eqb _ _); [by inversion 1|done].
Qed.

Lemma first_with_id_total i ls w :
  (∀ l, l ∈ ls → is_Some (heap w !! l)) →
  ∃ r, first_with_id i ls w = Some (r, w).
Proof.
  induction ls as [|l ls IH]; intros Hal; [by eexists|].
  rewrite first_with_id_cons.
  destruct (Hal l) as [n ->]; [left|].
  destruct (N.eqb _ _); [by eexists|].
  apply IH. intros l' Hl'. apply Hal. by right.
Qed.

Lemma first_with_id_None i ls w w' :
  first_with_id i ls w = Some (None, w') →
  ∀ l n, l ∈ ls → heap w !! l = Some n → Note.id n ≠ i.
Proof.
  induction ls as [|l ls IH]; intros Hf l' n' Hin Hn'.
  { by apply elem_of_nil in Hin. }
  rewrite first_with_id_cons in Hf.
  destruct (heap w !! l) as [n|] eqn:Hn; [|done].
  destruct (N.eqb_spec (Note.id n) i) as [|Hne]; [done|].
  apply elem_of_cons in Hin as [->|Hin]; [congruence|].
  by eapply IH.
Qed.

Lemma first_with_id_Some i ls w w' l :
  first_with_id i ls w = Some (Some l, w') →
  ∃ pre post n,
    ls = pre ++ l :: post ∧ heap w !! l = Some n ∧ Note.id n = i
    ∧ Forall (λ l', ∃ n', heap w !! l' = Some n' ∧ Note.id n' ≠ i) pre.
Proof.
  induction ls as [|l0 ls IH]; [by inversion 1|].
  rewrite first_with_id_cons.
  destruct (heap w !! l0) as [n0|] eqn:Hn0; [|done].
  destruct (N.eqb_spec (Note.id n0) i) as [Heq|Hne].
  - inversion 1; subst. by exists [], ls, n0.
  - intros (pre & post & n & -> & Hn & Hid & Hpre)%IH.
    exists (l0 :: pre), post, n. split_and!; try done.
    constructor; [by exists n0|done].
Qed.

Lemma first_with_id_absent i ls w :
  (∀ l, l ∈ ls → is_Some (heap w !! l)) →
  (∀ l n, l ∈ ls → heap w !! l = Some n → Note.id n ≠ i) →
  first_with_id i ls w = Some (None, w).
Proof.
  intros Hal Hno. destruct (first_with_id_total i ls w Hal) as [[l|] Hr]; [|done].
  destruct (first_with_id_Some _ _ _ _ _ Hr) as (pre & post & n & -> & Hn & Hid & _).
  exfalso. eapply Hno; [|done..]. apply elem_of_app. right. left.
Qed.

Lemma get_by_id_eq i w : get_by_id i w = first_with_id i (_notes w) w.
Proof. done. Qed.

(** With unique identifiers, the look-up of a stored note's identifier
    finds that note's own reference. *)
Lemma get_by_id_stored w l n :
  store_ok w → stored w l n → get_by_id (Note.id n) w = Some (Some l, w).
Proof.
  intros Hok [Hin Hn]. rewrite get_by_id_eq.
  destruct (first_with_id_total (Note.id n) (_notes w) w (ok_allocated _ Hok))
    as [[l'|] Hr].
  - destruct (first_with_id_Some _ _ _ _ _ Hr) as (pre & post & n' & E & Hn' & Hid & _).
    assert (l' = l) as ->; [|done].
    eapply (ok_unique _ Hok); [| |exact Hid]; split; try done.
    rewrite E. apply elem_of_app. right. left.
  - exfalso. by eapply (first_with_id_None _ _ _ _ Hr).
Qed.

(** ** The sort *)

Section sort.
Implicit Types (x y : datetime * ref) (l : list (datetime * ref)).

Lemma insert_key_perm x l : insert_key x l ≡ₚ x :: l.
Proof.
  induction l as [|y l IH]; simpl; [done|].
  destruct (x.1 <=? y.1); [done|].
  rewrite IH. apply perm_swap.
Qed.

Lemma stable_sort_perm l : stable_sort l ≡ₚ l.
Proof.
  induction l as [|x l IH]; simpl; [done|].
  fold (stable_sort l). by rewrite insert_key_perm, IH.
Qed.

Lemma insert_key_sorted x l :
  StronglySorted key_le l → StronglySorted key_le (insert_key x l).
Proof.
  induction l as [|y l IH]; simpl; intros Hs.
  { repeat constructor. }
  apply StronglySorted_inv in Hs as [Hs Hy].
  destruct (Z.leb_spec x.1 y.1) as [Hle|Hgt].
  - constructor; [by constructor|].
    constructor; [done|].
    eapply Forall_impl; [exact Hy|]. unfold key_le. intros; lia.
  - constructor; [by apply IH|].
    rewrite insert_key_perm. constructor; [unfold key_le; lia|done].
Qed.

Lemma stable_sort_sorted l : StronglySorted key_le (stable_sort l).
Proof.
  induction l as [|x l IH]; simpl; [constructor|].
  by apply insert_key_sorted.
Qed.

(** Insertion never moves an element past another of the same key. *)
Lemma insert_key_stable t x l :
  filter (λ y, y.1 = t) (insert_key x l) = filter (λ y, y.1 = t) (x :: l).
Proof.
  induction l as [|y l IH]; simpl; [done|].
  destruct (Z.leb_spec x.1 y.1) as [Hle|Hgt]; [done|].
  rewrite (filter_cons _ y), IH, !(filter_cons _ x), !(filter_cons _ y).
  repeat case_decide; try done; lia.
Qed.

Lemma stable_sort_stable t l :
  filter (λ y, y.1 = t) (stable_sort l) = filter (λ y, y.1 = t) l.
Proof.
  induction l as [|x l IH]; simpl; [done|].
  fold (stable_sort l).
  by rewrite insert_key_stable, !(filter_cons _ x), IH.
Qed.

(** A sorted list is determined by its groups of equal key, so every
    stable sort computes what [stable_sort] computes. *)
Lemma sorted_stable_unique l1 l2 :
  StronglySorted key_le l1 → StronglySorted key_le l2 →
  (∀ t, filter (λ y, y.1 = t) l1 = filter (λ y, y.1 = t) l2) →
  l1 = l2.
Proof.
  revert l2. induction l1 as [|x l1 IH]; intros [|y l2] H1 H2 Hf; [done|..].
  - specialize (Hf y.1). by rewrite filter_cons_True in Hf.
  - specialize (Hf x.1). by rewrite filter_cons_True in Hf.
  - apply StronglySorted_inv in H1 as [H1 Hx].
    apply StronglySorted_inv in H2 as [H2 Hy].
    rewrite Forall_forall in Hx, Hy.
    assert (y.1 ≤ x.1) as Hyx.
    { assert (x ∈ filter (λ z, z.1 = x.1) (y :: l2)) as Hin.
      { rewrite <- Hf, filter_cons_True by done. left. }
      apply list_elem_of_filter in Hin as [_ [->|Hin]%elem_of_cons]; [lia|].
      by apply Hy. }
    assert (x.1 ≤ y.1) as Hxy.
    { assert (y ∈ filter (λ z, z.1 = y.1) (x :: l1)) as Hin.
      { rewrite Hf, filter_cons_True by done. left. }
      apply list_elem_of_filter in Hin as [_ [->|Hin]%elem_of_cons]; [lia|].
      by apply Hx. }
    assert (x = y) as <-.
    { specialize (Hf x.1).
      rewrite !filter_cons_True in Hf by lia. by injection Hf. }
    f_equal. apply IH; try done.
    intros t. specialize (Hf t). rewrite !filter_cons in Hf.
    case_decide; [by injection Hf|done].
Qed.

Lemma stable_sort_unique (f : list (datetime * ref) → list (datetime * ref)) :
  (∀ l, StronglySorted key_le (f l)) →
  (∀ t l, filter (λ y, y.1 = t) (f l) = filter (λ y, y.1 = t) l) →
  ∀ l, f l = stable_sort l.
Proof.
  intros Hs Hst l. apply sorted_stable_unique.
  - apply Hs.
  - apply stable_sort_sorted.
  - intros t. by rewrite Hst, stable_sort_stable.
Qed.

Lemma StronglySorted_reverse (R : relation (datetime * ref)) l :
  StronglySorted R l → StronglySorted (flip R) (reverse l).
Proof.
  induction 1 as [|x l Hs IH Hx]; [constructor|].
  rewrite reverse_cons. apply StronglySorted_app; split_and!.
  - intros a b Ha ->%list_elem_of_singleton.
    rewrite elem_of_reverse in Ha. rewrite Forall_forall in Hx.
    by apply Hx.
  - done.
  - repeat constructor.
Qed.

(** On strictly ascending keys, sorting the reversed list gives the
    list back. *)
Lemma insert_key_last x l :
  Forall (λ y, y.1 < x.1) l → insert_key x l = l ++ [x].
Proof.
  induction 1 as [|y l Hy Hl IH]; simpl; [done|].
  destruct (Z.leb_spec x.1 y.1); [lia|]. by rewrite IH.
Qed.

Lemma stable_sort_reverse_ascending l :
  StronglySorted key_lt l → stable_sort (reverse l) = l.
Proof.
  induction l as [|x l IH] using rev_ind; [done|].
  intros [Hx [Hl _]]%StronglySorted_app.
  rewrite reverse_snoc. simpl. fold (stable_sort (reverse l)).
  rewrite IH by done. apply insert_key_last.
  apply Forall_forall. intros y Hy. apply (Hx y x Hy). left.
Qed.

Lemma sorted_reverse_perm l : sorted true l ≡ₚ l.*2.
Proof.
  unfold sorted. by rewrite reverse_Permutation, stable_sort_perm, reverse_Permutation.
Qed.

Lemma sorted_reverse_ascending l :
  StronglySorted key_lt l → sorted true l = reverse l.*2.
Proof.
  intros Hl. unfold sorted. by rewrite stable_sort_reverse_ascending, fmap_reverse.
Qed.
End sort.

(** ** Listing *)

Lemma decorate_spec ls w ks w' :
  decorate ls w = Some (ks, w') →
  w' = w ∧ ks.*2 = ls ∧ Forall (keyed w) ks.
Proof.
  revert ks. induction ls as [|l ls IH]; intros ks.
  { inversion 1; subst. by repeat split. }
  rewrite decorate_cons. destruct (heap w !! l) as [n|] eqn:Hn; [|done].
  destruct (decorate ls w) as [[ks0 w0]|] eqn:Hd; [|done].
  inversion 1; subst. destruct (IH ks0 eq_refl) as (-> & <- & Hk).
  split_and!; try done. constructor; [|done].
  unfold keyed, created_at_is. simpl. by rewrite Hn.
Qed.

Lemma decorate_total ls w :
  (∀ l, l ∈ ls → is_Some (heap w !! l)) → ∃ ks, decorate ls w = Some (ks, w).
Proof.
  induction ls as [|l ls IH]; intros Hal; [by eexists|].
  rewrite decorate_cons. destruct (Hal l) as [n ->]; [left|].
  destruct IH as [ks ->]; [|by eexists].
  intros l' Hl'. apply Hal. by right.
Qed.

Lemma keyed_filter w t ks :
  Forall (keyed w) ks →
  filter (created_at_is w t) ks.*2 = (filter (λ x, x.1 = t) ks).*2.
Proof.
  induction 1 as [|[k l] ks Hk _ IH]; [done|].
  rewrite fmap_cons, !filter_cons, IH. simpl.
  unfold keyed in Hk. unfold created_at_is in *. simpl in *.
  repeat case_decide; try done; congruence.
Qed.

Lemma keyed_sorted w ks :
  Forall (keyed w) ks → StronglySorted key_ge ks →
  StronglySorted (not_older w) ks.*2.
Proof.
  induction 1 as [|[k l] ks Hk Hks IH]; [constructor|].
  intros [Hs Hall]%StronglySorted_inv. rewrite fmap_cons. constructor; [by apply IH|].
  apply Forall_fmap, Forall_forall. intros [k' l'] Hin.
  rewrite Forall_forall in Hall, Hks.
  specialize (Hall _ Hin). specialize (Hks _ Hin).
  unfold keyed, created_at_is, key_ge, not_older in *. simpl in *.
  destruct (heap w !! l) as [n|]; [|done].
  destruct (heap w !! l') as [n'|]; [|done].
  simpl in *. exists n, n'. split_and!; try done.
  injection Hk as ->. injection Hks as ->. done.
Qed.

Lemma get_all_spec w :
  allocated w →
  ∃ ls, get_all w = Some (ls, w)
        ∧ ls ≡ₚ _notes w
        ∧ StronglySorted (not_older w) ls
        ∧ ∀ t, filter (created_at_is w t) ls = filter (created_at_is w t) (_notes w).
Proof.
  intros Hal. destruct (decorate_total (_notes w) w Hal) as [ks Hd].
  destruct (decorate_spec _ _ _ _ Hd) as (_ & Hks & Hkeyed).
  exists (sorted true ks). split_and!.
  - unfold get_all. munfold. by rewrite Hd.
  - by rewrite sorted_reverse_perm, Hks.
  - unfold sorted. apply keyed_sorted.
    + by rewrite reverse_Permutation, stable_sort_perm, reverse_Permutation.
    + apply (StronglySorted_reverse key_le), stable_sort_sorted.
  - intros t. unfold sorted. rewrite keyed_filter.
    + rewrite filter_reverse, stable_sort_stable, filter_reverse, reverse_involutive.
      by rewrite <- (keyed_filter w t ks Hkeyed), Hks.
    + by rewrite reverse_Permutation, stable_sort_perm, reverse_Permutation.
Qed.

Lemma get_all_frame w ls w' :
  get_all w = Some (ls, w') → w' = w ∧ ls ≡ₚ _notes w.
Proof.
  unfold get_all. munfold.
  destruct (decorate (_notes w) w) as [[ks w0]|] eqn:Hd; [|done].
  inversion 1; subst. destruct (decorate_spec _ _ _ _ Hd) as (-> & <- & _).
  split; [done|]. apply sorted_reverse_perm.
Qed.

(** ** Creation *)

Lemma create_valid d w :
  NoteCreate.valid d = true →
  create d w = Some (length (heap w), after_create d w).
Proof.
  unfold NoteCreate.valid, create, Note_new. intros ->. by munfold.
Qed.

Lemma create_Some d w l w' :
  create d w = Some (l, w') →
  NoteCreate.valid d = true ∧ l = length (heap w) ∧ w' = after_create d w.
Proof.
  destruct (NoteCreate.valid d) eqn:Hv.
  - rewrite create_valid by done. by inversion 1.
  - unfold NoteCreate.valid in Hv. unfold create, Note_new. rewrite Hv. by munfold.
Qed.

(** ** Update *)

Lemma setattr_eq l f v n w :
  heap w !! l = Some n →
  setattr l f v w =
  Some (tt, mkWorld (<[l := Note.set_field f v n]> (heap w)) (_notes w)
                    (clock w) (ticks w) (uuids w) (drawn w)).
Proof. intros Hn. unfold setattr. munfold. by rewrite !Hn. Qed.

Lemma assign_fields d l n w :
  heap w !! l = Some n →
  for_each (λ fv, setattr l fv.1 fv.2) (NoteUpdate.model_dump_exclude_unset d) w
  = Some (tt, mkWorld (<[l := merged d n]> (heap w)) (_notes w)
                      (clock w) (ticks w) (uuids w) (drawn w)).
Proof.
  intros Hn. pose proof (lookup_lt_Some _ _ _ Hn) as Hlt.
  destruct w as [h ns clk tk us dr], n as [ti co i ca ua]. simpl in *.
  unfold NoteUpdate.model_dump_exclude_unset, merged. simpl.
  repeat case_bool_decide; simpl; unfold bind, ret;
    repeat (erewrite setattr_eq;
            [|simpl; first [exact Hn | by apply list_lookup_insert_eq]];
            simpl);
    rewrite ?list_insert_insert_eq; try done.
  by rewrite list_insert_id.
Qed.

Lemma update_found i d l n w :
  get_by_id i w = Some (Some l, w) → heap w !! l = Some n →
  update i d w = Some (Some l, after_update d l n w).
Proof.
  intros Hg Hn. pose proof (lookup_lt_Some _ _ _ Hn) as Hlt.
  unfold update. unfold bind at 1. rewrite Hg.
  unfold bind at 1. rewrite (assign_fields d l n w Hn).
  unfold set_updated_at, after_update. munfold. simpl.
  rewrite list_lookup_insert_eq by done. simpl.
  rewrite list_lookup_insert_eq by done.
  by rewrite list_insert_insert_eq.
Qed.

Lemma update_absent i d w :
  get_by_id i w = Some (None, w) → update i d w = Some (None, w).
Proof. intros Hg. unfold update. unfold bind at 1. by rewrite Hg. Qed.

(** ** Deletion *)

(** [list.remove] drops the element that the look-up found: no element
    before it is the same object or has equal fields. *)
Lemma list_remove_found i l n pre post w :
  heap w !! l = Some n → Note.id n = i →
  Forall (λ l', ∃ n', heap w !! l' = Some n' ∧ Note.id n' ≠ i) pre →
  list_remove l (pre ++ l :: post) w = Some (pre ++ post, w).
Proof.
  intros Hn Hid. induction 1 as [|e pre (ne & Hne & Hide) _ IH]; simpl.
  - unfold bind, py_eq. by rewrite decide_True.
  - unfold bind at 1. unfold py_eq.
    rewrite decide_False by (intros ->; congruence).
    munfold. rewrite Hne, Hn. rewrite bool_decide_false by congruence.
    by rewrite IH.
Qed.

Lemma delete_found i l w :
  get_by_id i w = Some (Some l, w) →
  ∃ pre post n,
    _notes w = pre ++ l :: post
    ∧ heap w !! l = Some n ∧ Note.id n = i
    ∧ Forall (λ l', ∃ n', heap w !! l' = Some n' ∧ Note.id n' ≠ i) pre
    ∧ delete i w = Some (true, after_delete (pre ++ post) w).
Proof.
  intros Hg. pose proof Hg as Hf. rewrite get_by_id_eq in Hf.
  apply first_with_id_Some in Hf as (pre & post & n & E & Hn & Hid & Hpre).
  exists pre, post, n. split_and!; try done.
  unfold delete. unfold bind at 1. rewrite Hg.
  unfold bind at 1, read_notes. rewrite E.
  unfold bind at 1. by rewrite (list_remove_found i l n pre post w).
Qed.

Lemma delete_absent i w :
  get_by_id i w = Some (None, w) → delete i w = Some (false, w).
Proof. intros Hg. unfold delete. unfold bind at 1. by rewrite Hg. Qed.

(** ** What each operation does to the world *)

Lemma get_by_id_frame i w r w' : get_by_id i w = Some (r, w') → w' = w.
Proof. rewrite get_by_id_eq. apply first_with_id_frame. Qed.

Lemma get_by_id_total i w : allocated w → ∃ r, get_by_id i w = Some (r, w).
Proof. intros Hal. rewrite get_by_id_eq. by apply first_with_id_total. Qed.

Lemma update_Some i d r w w' :
  update i d w = Some (r, w') →
  (r = None ∧ w' = w ∧ get_by_id i w = Some (None, w))
  ∨ ∃ l n, r = Some l ∧ get_by_id i w = Some (Some l, w)
           ∧ l ∈ _notes w ∧ heap w !! l = Some n ∧ Note.id n = i
           ∧ w' = after_update d l n w.
Proof.
  intros Hu. destruct (get_by_id i w) as [[[l|] w0]|] eqn:Hg.
  - pose proof (get_by_id_frame _ _ _ _ Hg) as ->. right.
    pose proof Hg as Hf. rewrite get_by_id_eq in Hf.
    apply first_with_id_Some in Hf as (pre & post & n & E & Hn & Hid & _).
    rewrite (update_found i d l n w Hg Hn) in Hu. inversion Hu; subst.
    exists l, n. split_and!; try done.
    rewrite E. apply elem_of_app. right. left.
  - pose proof (get_by_id_frame _ _ _ _ Hg) as ->. left.
    rewrite (update_absent i d w Hg) in Hu. by inversion Hu.
  - unfold update in Hu. unfold bind at 1 in Hu. by rewrite Hg in Hu.
Qed.

Lemma delete_Some i b w w' :
  delete i w = Some (b, w') →
  (b = false ∧ w' = w ∧ get_by_id i w = Some (None, w))
  ∨ ∃ l pre post, b = true ∧ get_by_id i w = Some (Some l, w)
                  ∧ _notes w = pre ++ l :: post
                  ∧ w' = after_delete (pre ++ post) w.
Proof.
  intros Hd. destruct (get_by_id i w) as [[[l|] w0]|] eqn:Hg.
  - pose proof (get_by_id_frame _ _ _ _ Hg) as ->.
    destruct (delete_found i l w Hg) as (pre & post & n & E & _ & _ & _ & Hd').
    rewrite Hd' in Hd. inversion Hd; subst. right. by exists l, pre, post.
  - pose proof (get_by_id_frame _ _ _ _ Hg) as ->.
    rewrite (delete_absent i w Hg) in Hd. inversion Hd; subst. by left.
  - unfold delete in Hd. unfold bind at 1 in Hd. by rewrite Hg in Hd.
Qed.

Lemma run_op_effect o w w' : run_op o w = Some (tt, w') → effect w w'.
Proof.
  destruct o as [d| |i|i d|i|]; simpl; try unfold bind at 1.
  - destruct (create d w) as [[l w0]|] eqn:Hc; [|done].
    inversion 1; subst. apply create_Some in Hc as (Hv & _ & ->).
    by constructor.
  - destruct (get_all w) as [[ls w0]|] eqn:Hg; [|done].
    inversion 1; subst. apply get_all_frame in Hg as [-> _]. constructor.
  - destruct (get_by_id i w) as [[r w0]|] eqn:Hg; [|done].
    inversion 1; subst. apply get_by_id_frame in Hg as ->. constructor.
  - destruct (update i d w) as [[r w0]|] eqn:Hu; [|done].
    inversion 1; subst.
    apply update_Some in Hu as [(_ & -> & _)|(l & n & _ & _ & Hin & Hn & _ & ->)].
    + constructor.
    + by constructor.
  - destruct (delete i w) as [[b w0]|] eqn:Hd; [|done].
    inversion 1; subst.
    apply delete_Some in Hd as [(_ & -> & _)|(l & pre & post & _ & _ & E & ->)].
    + constructor.
    + by econstructor.
  - unfold clear, write_notes. inversion 1. apply eff_clear.
Qed.

(** ** Invariants of reachable worlds *)

Lemma inv_init clk ids : inv (init clk ids).
Proof.
  split; unfold allocated, ids_drawn; simpl.
  - intros l Hl. by apply elem_of_nil in Hl.
  - constructor.
  - split; [done|]. intros l n Hl. by rewrite lookup_nil in Hl.
  - intros l n Hl. by rewrite lookup_nil in Hl.
Qed.

Lemma stamped_later w w' n :
  clock w' = clock w → (ticks w ≤ ticks w')%nat → stamped w n → stamped w' n.
Proof.
  intros Hc Ht (i & j & Hij & Hci & Hcj). exists i, j. rewrite Hc.
  split_and!; try done; lia.
Qed.

Lemma inv_effect w w' : inv w → effect w w' → inv w'.
Proof.
  intros [Hal Hnd [Hlen Hids] Hst]. destruct 1 as [|d Hv|d l n [Hin Hn]|pre l post E|].
  - done.
  - assert (length (heap w) ∉ _notes w) as Hfresh.
    { intros [n Hn%lookup_lt_Some]%Hal. lia. }
    split; unfold allocated, ids_drawn; simpl.
    + intros l [Hl| ->%list_elem_of_singleton]%elem_of_app.
      * destruct (Hal l Hl) as [n Hn]. exists n. by apply lookup_app_l_Some.
      * exists (new_note d w). by apply list_lookup_middle.
    + apply NoDup_app. split_and!; [done| |apply NoDup_singleton].
      intros l Hl ->%list_elem_of_singleton. done.
    + split; [rewrite length_app; simpl; lia|].
      intros l n [Hl|[-> [= <-]]]%lookup_snoc_Some.
      * destruct Hl as [_ Hl]. by apply Hids.
      * simpl. by rewrite Hlen.
    + intros l n [[_ Hl]|[-> [= <-]]]%lookup_snoc_Some.
      * eapply stamped_later; [| |by eapply Hst]; simpl; [done|lia].
      * exists (ticks w), (S (ticks w)). simpl. split_and!; try done; lia.
  - pose proof (lookup_lt_Some _ _ _ Hn) as Hlt.
    split; unfold allocated, ids_drawn; simpl.
    + intros l' Hl'. apply list_lookup_insert_is_Some. by apply Hal.
    + done.
    + split; [by rewrite length_insert|].
      intros l' n' [(-> & <- & _)|[Hne Hl']]%list_lookup_insert_Some.
      * simpl. by apply Hids.
      * by apply Hids.
    + intros l' n' [(-> & <- & _)|[Hne Hl']]%list_lookup_insert_Some.
      * destruct (Hst _ _ Hn) as (i & j & Hij & Hci & _).
        exists i, (ticks w). simpl. split_and!; try done; lia.
      * eapply stamped_later; [| |by eapply Hst]; simpl; [done|lia].
  - rewrite E in Hnd. apply NoDup_app in Hnd as (Hpre & Hpp & [Hl Hpost]%NoDup_cons).
    split; unfold allocated, ids_drawn; simpl; try done.
    + intros l' Hl'. apply Hal. rewrite E.
      apply elem_of_app in Hl' as [?|?]; apply elem_of_app; [by left|].
      right. by right.
    + apply NoDup_app. split_and!; try done.
      intros x Hx Hx'. apply (Hpp x Hx). by right.
  - split; unfold allocated, ids_drawn; simpl; try done.
    + intros l Hl. by apply elem_of_nil in Hl.
    + constructor.
Qed.

(** No object is ever freed. *)
Lemma effect_heap_alloc w w' l :
  effect w w' → is_Some (heap w !! l) → is_Some (heap w' !! l).
Proof.
  destruct 1 as [|d Hv|d l0 n [Hin Hn]|pre l0 post E|]; simpl; try done.
  - intros [n Hn]. exists n. by apply lookup_app_l_Some.
  - intros Hl. by apply list_lookup_insert_is_Some.
Qed.

Lemma reachable_heap_alloc w0 w l :
  reachable w0 w → is_Some (heap w0 !! l) → is_Some (heap w !! l).
Proof.
  induction 1 as [|w o w' _ IH Hstep]; [done|].
  intros Hl. eapply effect_heap_alloc; [by eapply run_op_effect|by apply IH].
Qed.

Lemma effect_oracles w w' :
  effect w w' → clock w' = clock w ∧ uuids w' = uuids w.
Proof. by destruct 1. Qed.

Lemma reachable_inv w0 w : inv w0 → reachable w0 w → inv w.
Proof.
  intros H0. induction 1 as [|w o w' _ IH Hstep]; [done|].
  eapply inv_effect; [exact IH|]. by eapply run_op_effect.
Qed.

Lemma reachable_oracles w0 w :
  reachable w0 w → clock w = clock w0 ∧ uuids w = uuids w0.
Proof.
  induction 1 as [|w o w' _ [IHc IHu] Hstep]; [done|].
  apply run_op_effect, effect_oracles in Hstep as [-> ->]. done.
Qed.

(** Without collisions of [uuid4], identifiers are unique in the store. *)
Lemma inv_store_ok w : inv w → Inj (=) (=) (uuids w) → store_ok w.
Proof.
  intros [Hal Hnd [_ Hids] _] Hinj. split; try done.
  intros l1 l2 n1 n2 [_ H1] [_ H2] Hid.
  apply Hinj. by rewrite <- (Hids _ _ H1), <- (Hids _ _ H2).
Qed.

(** With a clock that never goes back, timestamps are ordered and in the
    past. *)
Lemma inv_clock_ok w : inv w → monotone (clock w) → clock_ok w.
Proof. intros Hinv Hm. split; [done|]. apply (inv_stamped _ Hinv). Qed.

Lemma stamped_le w n :
  monotone (clock w) → stamped w n →
  Note.created_at n ≤ Note.updated_at n ∧ Note.updated_at n ≤ clock w (ticks w).
Proof.
  intros Hm (i & j & Hij & -> & ->). split; apply Hm; lia.
Qed.

(** ** Creation followed by look-up *)

Lemma first_with_id_skip i pre ls w :
  Forall (λ l', ∃ n', heap w !! l' = Some n' ∧ Note.id n' ≠ i) pre →
  first_with_id i (pre ++ ls) w = first_with_id i ls w.
Proof.
  induction 1 as [|l pre (n & Hn & Hid) _ IH]; [done|].
  rewrite <- app_comm_cons, first_with_id_cons, Hn.
  by destruct (N.eqb_spec (Note.id n) i).
Qed.

(** When the identifier drawn is not one of the store, the look-up of
    the created note's identifier finds the created note.  Its
    [created_at] and [updated_at] are two successive readings of the
    clock. *)
Lemma create_then_get_by_id d w :
  NoteCreate.valid d = true → allocated w → ¬ present w (uuids w (drawn w)) →
  ∃ l w' n,
    create d w = Some (l, w')
    ∧ heap w' !! l = Some n
    ∧ get_by_id (Note.id n) w' = Some (Some l, w')
    ∧ Note.title n = Some (NoteCreate.title d)
    ∧ Note.content n = Some (NoteCreate.content d)
    ∧ Note.id n = uuids w (drawn w)
    ∧ Note.created_at n = clock w (ticks w)
    ∧ Note.updated_at n = clock w (S (ticks w)).
Proof.
  intros Hv Hal Hfresh.
  exists (length (heap w)), (after_create d w), (new_note d w).
  assert (heap (after_create d w) !! length (heap w) = Some (new_note d w)) as Hnew.
  { simpl. by apply list_lookup_middle. }
  split_and!; try done; [by apply create_valid|].
  rewrite get_by_id_eq. simpl _notes. rewrite first_with_id_skip.
  - rewrite first_with_id_cons, Hnew. simpl. by rewrite N.eqb_refl.
  - apply Forall_forall. intros l Hl. destruct (Hal l Hl) as [n Hn].
    exists n. split; [simpl; by apply lookup_app_l_Some|].
    intros Hid. apply Hfresh. by exists l, n.
Qed.

(** ** A sequence of creates *)

Lemma create_all_valid ds w :
  Forall (λ d, NoteCreate.valid d = true) ds →
  create_all ds w = Some (seq (length (heap w)) (length ds), after_create_all ds w).
Proof.
  intros Hds. revert w. induction Hds as [|d ds Hd _ IH]; intros w.
  - destruct w. unfold after_create_all. simpl. unfold ret.
    by rewrite !app_nil_r, !Nat.add_0_r.
  - simpl. unfold bind at 1. rewrite create_valid by done.
    unfold bind at 1. rewrite IH. unfold ret, after_create_all. simpl.
    rewrite length_app, <- !app_assoc. simpl. rewrite Nat.add_1_r.
    do 3 f_equal; lia.
Qed.

Lemma created_lookup clk ids t u ds k :
  created clk ids t u ds !! k =
  (λ d, Note.mk (Some (NoteCreate.title d)) (Some (NoteCreate.content d))
                (ids (u + k)%nat) (clk (t + 2 * k)%nat) (clk (S (t + 2 * k))))
  <$> ds !! k.
Proof.
  revert t u k. induction ds as [|d ds IH]; intros t u [|k]; simpl; try done.
  - by rewrite !Nat.add_0_r.
  - rewrite IH. destruct (ds !! k); simpl; [|done].
    do 2 f_equal; f_equal; lia.
Qed.

Lemma StronglySorted_lookup_2 {A} (R : relation A) (l : list A) :
  (∀ i j x y, (i < j)%nat → l !! i = Some x → l !! j = Some y → R x y) →
  StronglySorted R l.
Proof.
  induction l as [|x l IH]; intros H; constructor.
  - apply IH. intros i j a b Hij Ha Hb. apply (H (S i) (S j)); [lia|done..].
  - apply Forall_forall. intros y [j Hj]%list_elem_of_lookup.
    apply (H 0%nat (S j)); [lia|done..].
Qed.

(** ** Example worlds *)

Lemma demo_created :
  create_all A_B_C (init tick_clock serial_ids) = Some ([0; 1; 2]%nat, demo).
Proof. reflexivity. Qed.

Lemma demo_reachable : reachable (init tick_clock serial_ids) demo.
Proof.
  set (a := NoteCreate.mk "A" "a"). set (b := NoteCreate.mk "B" "b").
  set (w0 := init tick_clock serial_ids).
  apply (reach_step _ (after_create b (after_create a w0))
                    (Create (NoteCreate.mk "C" "c"))); [|reflexivity].
  apply (reach_step _ (after_create a w0) (Create b)); [|reflexivity].
  apply (reach_step _ w0 (Create a)); [constructor|reflexivity].
Qed.

Lemma tick_clock_monotone : monotone tick_clock.
Proof. intros i j Hij. unfold tick_clock. lia. Qed.

Lemma frozen_clock_monotone : monotone frozen_clock.
Proof. by intros i j Hij. Qed.

Lemma serial_ids_inj : Inj (=) (=) serial_ids.
Proof. intros i j. unfold serial_ids. lia. Qed.

Lemma demo_inv : inv demo.
Proof. eapply reachable_inv; [apply inv_init|apply demo_reachable]. Qed.

Lemma demo_store_ok : store_ok demo.
Proof. apply inv_store_ok; [apply demo_inv|apply serial_ids_inj]. Qed.

Lemma demo_clock_ok : clock_ok demo.
Proof. apply inv_clock_ok; [apply demo_inv|apply tick_clock_monotone]. Qed.

Lemma demo_stored_B :
  stored demo 1%nat (Note.mk (Some "B") (Some "b") 1%N 2 3).
Proof. split; [right; left|done]. Qed.

Lemma demo_absent_7 : ¬ present demo 7%N.
Proof.
  intros (l & n & [Hl Hn] & Hid). unfold demo in *. simpl in *.
  repeat (apply elem_of_cons in Hl as [->|Hl];
          [simpl in Hn; injection Hn as <-; simpl in Hid; lia|]).
  by apply elem_of_nil in Hl.
Qed.

(** ** Validation of an update payload *)

Lemma validate_field_within ok v x :
  NoteUpdate.validate_field ok v = Some x → within ok x = true.
Proof.
  destruct v as [|s|]; simpl; [by intros [= <-]| |done].
  destruct (ok s) eqn:Hok; [|done]. by intros [= <-].
Qed.

Lemma model_validate_inv body d :
  NoteUpdate.model_validate body = Some d →
  ∃ tv ts cv cs,
    d = NoteUpdate.mk tv cv (ts ++ cs)
    ∧ match member Title body with
      | None => tv = None ∧ ts = []
      | Some v => NoteUpdate.validate_field valid_title v = Some tv ∧ ts = [Title]
      end
    ∧ match member Content body with
      | None => cv = None ∧ cs = []
      | Some v => NoteUpdate.validate_field valid_content v = Some cv
                  ∧ cs = [Content]
      end.
Proof.
  unfold NoteUpdate.model_validate, member.
  destruct (list_find (λ kv, kv.1 = Title) (reverse body)) as [[k1 [f1 v1]]|];
    destruct (list_find (λ kv, kv.1 = Content) (reverse body)) as [[k2 [f2 v2]]|];
    simpl;
    repeat match goal with
           | |- context [NoteUpdate.validate_field ?ok ?v] =>
               destruct (NoteUpdate.validate_field ok v) eqn:?
           end;
    try done; intros [= <-]; eexists _, _, _, _;
    (split_and!; [|reflexivity..]); reflexivity.
Qed.

Lemma model_validate_field body d f :
  NoteUpdate.model_validate body = Some d →
  match member f body with
  | None => (f ∉ NoteUpdate.fields_set d) ∧ NoteUpdate.get_field f d = None
  | Some v =>
      f ∈ NoteUpdate.fields_set d
      ∧ NoteUpdate.validate_field (bounds f) v = Some (NoteUpdate.get_field f d)
  end.
Proof.
  intros (tv & ts & cv & cs & -> & Ht & Hc)%model_validate_inv. simpl.
  destruct f; simpl.
  - destruct (member Title body) as [v|]; destruct Ht as [Ht ->].
    + split; [left|done].
    + split; [|done]. simpl. destruct (member Content body); destruct Hc as [_ ->].
      * by intros [=]%list_elem_of_singleton.
      * by intros ?%elem_of_nil.
  - destruct (member Content body) as [v|]; destruct Hc as [Hc ->].
    + split; [|done]. apply elem_of_app. right. left.
    + split; [|done]. rewrite app_nil_r.
      destruct (member Title body); destruct Ht as [_ ->].
      * by intros [=]%list_elem_of_singleton.
      * by intros ?%elem_of_nil.
Qed.

Lemma elem_of_model_dump d f v :
  (f, v) ∈ NoteUpdate.model_dump_exclude_unset d ↔
  f ∈ NoteUpdate.fields_set d ∧ v = NoteUpdate.get_field f d.
Proof.
  unfold NoteUpdate.model_dump_exclude_unset.
  rewrite elem_of_app.
  destruct (bool_decide_reflect (Title ∈ NoteUpdate.fields_set d)) as [Ht|Ht],
           (bool_decide_reflect (Content ∈ NoteUpdate.fields_set d)) as [Hc|Hc];
    rewrite ?list_elem_of_singleton, ?elem_of_nil; destruct f; simpl;
    intuition congruence.
Qed.

Lemma validate_field_json ok v x y :
  NoteUpdate.validate_field ok v = Some x →
  y = x ↔ v = match y with None => JNull | Some s => JString s end.
Proof.
  destruct v as [|s|]; simpl; [intros [= <-]| |done].
  - destruct y; split; done.
  - destruct (ok s); [|done]. intros [= <-]. destruct y; split; congruence.
Qed.

(** Validation, member by member. *)
Lemma model_validate_members body :
  NoteUpdate.model_validate body =
  match
    match member Title body with
    | None => Some (None, [])
    | Some v =>
        match NoteUpdate.validate_field valid_title v with
        | Some x => Some (x, [Title])
        | None => None
        end
    end,
    match member Content body with
    | None => Some (None, [])
    | Some v =>
        match NoteUpdate.validate_field valid_content v with
        | Some x => Some (x, [Content])
        | None => None
        end
    end
  with
  | Some (tv, ts), Some (cv, cs) => Some (NoteUpdate.mk tv cv (ts ++ cs))
  | _, _ => None
  end.
Proof.
  unfold NoteUpdate.model_validate, member.
  by destruct (list_find (λ kv, kv.1 = Title) (reverse body)) as [[k1 [f1 v1]]|],
              (list_find (λ kv, kv.1 = Content) (reverse body)) as [[k2 [f2 v2]]|].
Qed.

(** A body whose members are [null] or strings within the bounds is
    accepted. *)
Lemma model_validate_accepts body :
  (∀ g s, member g body = Some (JString s) → bounds g s = true) →
  (∀ g, member g body ≠ Some JOther) →
  ∃ d, NoteUpdate.model_validate body = Some d.
Proof.
  intros Hstr Hother. rewrite model_validate_members.
  pose proof (Hstr Title) as Ht. pose proof (Hstr Content) as Hc.
  pose proof (Hother Title) as Hto. pose proof (Hother Content) as Hco.
  destruct (member Title body) as [[|t|]|], (member Content body) as [[|c|]|];
    simpl in *; try done;
    rewrite ?(Ht _ eq_refl), ?(Hc _ eq_refl); by eexists.
Qed.

(** A store that can be listed holds no dangling reference. *)
Lemma get_all_allocated w ls w' : get_all w = Some (ls, w') → allocated w.
Proof.
  unfold get_all. munfold.
  destruct (decorate (_notes w) w) as [[ks w0]|] eqn:Hd; [|done].
  intros _ l Hl. destruct (decorate_spec _ _ _ _ Hd) as (_ & Hks & Hkeyed).
  rewrite <- Hks in Hl. apply list_elem_of_fmap in Hl as ([k l'] & -> & Hin).
  rewrite Forall_forall in Hkeyed. specialize (Hkeyed _ Hin).
  unfold keyed, created_at_is in Hkeyed. simpl in *.
  destruct (heap w !! l'); [by eexists|done].
Qed.

(** ** Lists as objects: what a call changes *)

Lemma on_objects_Some {A} (m : M A) o a o' :
  on_objects m o = Some (a, o') →
  ∃ ns w',
    lists o !! self_notes o = Some ns
    ∧ m (store_world o ns) = Some (a, w')
    ∧ o' = mkObjects (<[self_notes o := _notes w']> (lists o)) (self_notes o)
                     (heap w') (clock w') (ticks w') (uuids w') (drawn w').
Proof.
  unfold on_objects. destruct (lists o !! self_notes o) as [ns|]; [|done].
  destruct (m (store_world o ns)) as [[a' w']|] eqn:Hm; [|done].
  intros [= <- <-]. by exists ns, w'.
Qed.

Lemma get_all_object_Some o s o' :
  get_all_object o = Some (s, o') →
  ∃ ns snap,
    lists o !! self_notes o = Some ns
    ∧ get_all (store_world o ns) = Some (snap, store_world o ns)
    ∧ s = length (lists o)
    ∧ o' = mkObjects (lists o ++ [snap]) (self_notes o) (o_heap o) (o_clock o)
                     (o_ticks o) (o_uuids o) (o_drawn o).
Proof.
  unfold get_all_object.
  destruct (on_objects get_all o) as [[snap o1]|] eqn:Hon; [|done].
  apply on_objects_Some in Hon as (ns & w' & Hns & Hg & ->).
  pose proof (get_all_frame _ _ _ Hg) as [-> _]. simpl.
  rewrite length_insert, (list_insert_id _ _ _ Hns).
  intros [= <- <-]. by exists ns, snap.
Qed.

(** A call keeps the attribute [self._notes], every list object other
    than the one it refers to, and every note object allocated. *)
Lemma object_step_keeps o o' s :
  object_step o o' → s ≠ self_notes o → is_Some (lists o !! s) →
  self_notes o' = self_notes o
  ∧ lists o' !! s = lists o !! s
  ∧ ∀ l, is_Some (o_heap o !! l) → is_Some (o_heap o' !! l).
Proof.
  intros Hstep Hne [ls Hls]. destruct Hstep as [op o' Hop|s' o' Hlist].
  - apply on_objects_Some in Hop as (ns & w' & Hns & Hrun & ->). simpl.
    split_and!; [done|by apply list_lookup_insert_ne|].
    intros l. apply (effect_heap_alloc (store_world o ns) w').
    by apply (run_op_effect op).
  - apply get_all_object_Some in Hlist as (ns & snap & Hns & Hg & -> & ->).
    simpl. split_and!; [done| |done].
    rewrite Hls. by apply lookup_app_l_Some.
Qed.

Lemma afterwards_keeps o1 o s :
  afterwards o1 o → s ≠ self_notes o1 → is_Some (lists o1 !! s) →
  self_notes o = self_notes o1
  ∧ lists o !! s = lists o1 !! s
  ∧ ∀ l, is_Some (o_heap o1 !! l) → is_Some (o_heap o !! l).
Proof.
  intros Haft Hne Hs. induction Haft as [|o o' _ (IH1 & IH2 & IH3) Hstep]; [done|].
  destruct (object_step_keeps o o' s Hstep) as (H1 & H2 & H3).
  - by rewrite IH1.
  - by rewrite IH2.
  - split_and!; [congruence|congruence|auto].
Qed.

(** ** The claims *)

(** C1. For a stored note, [update] with its identifier returns that
    note, changed in exactly the fields of the payload and [updated_at]:
    a field that is set takes the payload's value, a field that is not
    keeps its value, [id] and [created_at] are kept, and [updated_at]
    becomes the reading of the clock taken by the update, whatever the
    payload, which under a clock that never goes back is not before the
    prior [updated_at].  No other cell and no part of the list changes. *)
Theorem update_merges_and_stamps w l n d :
  store_ok w → clock_ok w → stored w l n →
  ∃ w' n',
    update (Note.id n) d w = Some (Some l, w')
    ∧ heap w' = <[l := n']> (heap w)
    ∧ heap w' !! l = Some n'
    ∧ _notes w' = _notes w
    ∧ (∀ f, Note.get_field f n' =
            if bool_decide (f ∈ NoteUpdate.fields_set d)
            then NoteUpdate.get_field f d else Note.get_field f n)
    ∧ Note.id n' = Note.id n
    ∧ Note.created_at n' = Note.created_at n
    ∧ Note.updated_at n' = clock w (ticks w)
    ∧ Note.updated_at n ≤ Note.updated_at n'.
Proof.
  intros Hok [Hm Hst] Hs.
  pose proof (get_by_id_stored w l n Hok Hs) as Hg. destruct Hs as [Hin Hn].
  exists (after_update d l n w),
         (Note.set_updated_at (clock w (ticks w)) (merged d n)).
  split_and!; try done.
  - by apply update_found.
  - simpl. apply list_lookup_insert_eq. by eapply lookup_lt_Some.
  - by intros [].
  - simpl. by apply stamped_le, Hst with l.
Qed.

Lemma update_merges_and_stamps_witness :
  store_ok demo ∧ clock_ok demo
  ∧ stored demo 1%nat (Note.mk (Some "B") (Some "b") 1%N 2 3)
  ∧ ∃ w' n',
    update 1%N (NoteUpdate.mk (Some "B2") None [Title]) demo = Some (Some 1%nat, w')
    ∧ heap w' = <[1%nat := n']> (heap demo)
    ∧ heap w' !! 1%nat = Some n'
    ∧ _notes w' = _notes demo
    ∧ (∀ f, Note.get_field f n' =
            if bool_decide (f ∈ [Title])
            then NoteUpdate.get_field f (NoteUpdate.mk (Some "B2") None [Title])
            else Note.get_field f (Note.mk (Some "B") (Some "b") 1%N 2 3))
    ∧ Note.id n' = 1%N
    ∧ Note.created_at n' = 2
    ∧ Note.updated_at n' = 6
    ∧ 3 ≤ Note.updated_at n'.
Proof.
  split_and!; [apply demo_store_ok|apply demo_clock_ok|apply demo_stored_B|].
  apply (update_merges_and_stamps demo 1%nat
           (Note.mk (Some "B") (Some "b") 1%N 2 3)
           (NoteUpdate.mk (Some "B2") None [Title])).
  - apply demo_store_ok.
  - apply demo_clock_ok.
  - apply demo_stored_B.
Defined.

(** C2. The round trip of [create] and [get_by_id] returns the created
    note with its id, title and content, but the two timestamps of a new
    note are two readings of the clock: under a clock that advances
    between them, [created_at] and [updated_at] differ. *)
Theorem create_reads_the_clock_twice :
  ∃ l w' n,
    create (NoteCreate.mk "T" "C") (init tick_clock serial_ids) = Some (l, w')
    ∧ heap w' !! l = Some n
    ∧ get_by_id (Note.id n) w' = Some (Some l, w')
    ∧ Note.title n = Some "T" ∧ Note.content n = Some "C"
    ∧ Note.created_at n = 0 ∧ Note.updated_at n = 1
    ∧ Note.created_at n ≠ Note.updated_at n.
Proof. do 3 eexists. split_and!; [reflexivity..|]. vm_compute. by intros [=]. Qed.

(** C3, as the specification states it, fails: with ties allowed, notes
    created at the same reading of the clock are listed in creation
    order.  Under the clock that stands still, "A", "B", "C" are listed
    as A, B, C. *)
Lemma list_all_ties_keep_creation_order :
  create_all A_B_C (init frozen_clock serial_ids)
  = Some ([0; 1; 2]%nat, frozen_demo)
  ∧ monotone frozen_clock
  ∧ get_all frozen_demo = Some ([0; 1; 2]%nat, frozen_demo)
  ∧ (λ l, Note.title <$> heap frozen_demo !! l) <$> [0; 1; 2]%nat
    = [Some (Some "A"); Some (Some "B"); Some (Some "C")]
  ∧ get_all frozen_demo ≠ Some (reverse [0; 1; 2]%nat, frozen_demo).
Proof.
  split_and!; [reflexivity|apply frozen_clock_monotone|reflexivity..|].
  assert (get_all frozen_demo = Some ([0; 1; 2]%nat, frozen_demo)) as ->
    by reflexivity.
  by intros [=].
Qed.

(** C3, amended. From an empty store, after any sequence of creates,
    [get_all] returns the created notes ordered by [created_at]
    descending, notes of equal [created_at] in the order of their
    creation; when the creation timestamps strictly increase, that is the
    reverse creation order. *)
Theorem list_all_reverse_creation_order w ds :
  _notes w = [] →
  Forall (λ d, NoteCreate.valid d = true) ds →
  ∃ ls w' ls',
    create_all ds w = Some (ls, w')
    ∧ length ls = length ds
    ∧ (∀ k d, ds !! k = Some d →
         ∃ l n, ls !! k = Some l ∧ heap w' !! l = Some n
                ∧ Note.title n = Some (NoteCreate.title d)
                ∧ Note.content n = Some (NoteCreate.content d)
                ∧ Note.created_at n = clock w (ticks w + 2 * k))
    ∧ get_all w' = Some (ls', w')
    ∧ ls' ≡ₚ ls
    ∧ StronglySorted (not_older w') ls'
    ∧ (∀ t, filter (created_at_is w' t) ls' = filter (created_at_is w' t) ls)
    ∧ ((∀ i j, (i < j < length ds)%nat →
               clock w (ticks w + 2 * i) < clock w (ticks w + 2 * j)) →
       ls' = reverse ls).
Proof.
  intros Hempty Hds.
  set (h := length (heap w)). set (w' := after_create_all ds w).
  assert (∀ k d, ds !! k = Some d →
            heap w' !! (h + k)%nat =
            Some (Note.mk (Some (NoteCreate.title d)) (Some (NoteCreate.content d))
                          (uuids w (drawn w + k)%nat)
                          (clock w (ticks w + 2 * k)%nat)
                          (clock w (S (ticks w + 2 * k))))) as Hcell.
  { intros k d Hd. simpl. rewrite lookup_app_r by (unfold h; lia).
    replace (h + k - length (heap w))%nat with k by (unfold h; lia).
    by rewrite created_lookup, Hd. }
  assert (_notes w' = seq h (length ds)) as Hnotes.
  { simpl. by rewrite Hempty. }
  assert (allocated w') as Hal.
  { intros l. rewrite Hnotes. intros [k [-> Hk]%lookup_seq]%list_elem_of_lookup.
    destruct (lookup_lt_is_Some_2 ds k Hk) as [d Hd].
    rewrite (Hcell k d Hd). by eexists. }
  destruct (get_all_spec w' Hal) as (ls' & Hg & Hp & Hsorted & Hstable).
  rewrite Hnotes in Hp, Hstable.
  exists (seq h (length ds)), w', ls'. split_and!; try done.
  - by apply create_all_valid.
  - apply length_seq.
  - intros k d Hd. eexists _, _. split_and!.
    + apply lookup_seq. split; [done|]. by eapply lookup_lt_Some.
    + by apply Hcell.
    + done.
    + done.
    + done.
  - intros Hclk.
    destruct (decorate_total (_notes w') w' Hal) as [ks Hdec].
    destruct (decorate_spec _ _ _ _ Hdec) as (_ & Hks & Hkeyed).
    assert (get_all w' = Some (reverse (seq h (length ds)), w')) as Hrev.
    { unfold get_all. munfold. rewrite Hdec.
      rewrite sorted_reverse_ascending, Hks, Hnotes; [done|].
      apply StronglySorted_lookup_2. intros i j [ki li] [kj lj] Hij Hi Hj.
      assert (∀ a k l, ks !! a = Some (k, l) →
                (a < length ds)%nat ∧ k = clock w (ticks w + 2 * a)%nat) as Hkey.
      { intros a k l Ha.
        assert (ks.*2 !! a = Some l) as Hl by (by rewrite list_lookup_fmap, Ha).
        rewrite Hks, Hnotes in Hl. apply lookup_seq in Hl as [-> Hlt].
        split; [done|]. destruct (lookup_lt_is_Some_2 ds a Hlt) as [d Hd].
        rewrite Forall_forall in Hkeyed.
        specialize (Hkeyed (k, (h + a)%nat)). unfold keyed, created_at_is in Hkeyed.
        simpl fst in Hkeyed. simpl snd in Hkeyed.
        rewrite (Hcell a d Hd) in Hkeyed. simpl in Hkeyed.
        symmetry. apply (inj Some), Hkeyed. by eapply list_elem_of_lookup_2. }
      destruct (Hkey _ _ _ Hi) as [_ ->]. destruct (Hkey _ _ _ Hj) as [Hlt ->].
      unfold key_lt. simpl. apply Hclk. lia. }
    congruence.
Qed.

Lemma list_all_reverse_creation_order_witness :
  _notes (init tick_clock serial_ids) = []
  ∧ Forall (λ d, NoteCreate.valid d = true) A_B_C
  ∧ ∃ ls w' ls',
      create_all A_B_C (init tick_clock serial_ids) = Some (ls, w')
      ∧ length ls = 3%nat
      ∧ (∀ k d, A_B_C !! k = Some d →
           ∃ l n, ls !! k = Some l ∧ heap w' !! l = Some n
                  ∧ Note.title n = Some (NoteCreate.title d)
                  ∧ Note.content n = Some (NoteCreate.content d)
                  ∧ Note.created_at n = tick_clock (0 + 2 * k))
      ∧ get_all w' = Some (ls', w')
      ∧ ls' ≡ₚ ls
      ∧ StronglySorted (not_older w') ls'
      ∧ (∀ t, filter (created_at_is w' t) ls' = filter (created_at_is w' t) ls)
      ∧ ((∀ i j, (i < j < 3)%nat →
                 tick_clock (0 + 2 * i) < tick_clock (0 + 2 * j)) →
         ls' = reverse ls).
Proof.
  split; [reflexivity|]. split; [repeat constructor|].
  apply (list_all_reverse_creation_order (init tick_clock serial_ids) A_B_C).
  - reflexivity.
  - repeat constructor.
Defined.

(** C4. [get_all] returns every stored note, ordered by [created_at]
    descending, notes of equal [created_at] in their insertion order; on
    an empty store it returns the empty list; it never raises. *)
Theorem get_all_newest_first_stable w :
  allocated w →
  ∃ ls, get_all w = Some (ls, w)
        ∧ ls ≡ₚ _notes w
        ∧ StronglySorted (not_older w) ls
        ∧ (∀ t, filter (created_at_is w t) ls
                = filter (created_at_is w t) (_notes w))
        ∧ (_notes w = [] → ls = []).
Proof.
  intros Hal. destruct (get_all_spec w Hal) as (ls & Hg & Hp & Hs & Hst).
  exists ls. split_and!; try done.
  intros E. rewrite E in Hp. by apply Permutation_nil_r in Hp.
Qed.

Lemma get_all_newest_first_stable_witness :
  allocated demo
  ∧ ∃ ls, get_all demo = Some (ls, demo)
        ∧ ls ≡ₚ _notes demo
        ∧ StronglySorted (not_older demo) ls
        ∧ (∀ t, filter (created_at_is demo t) ls
                = filter (created_at_is demo t) (_notes demo))
        ∧ (_notes demo = [] → ls = []).
Proof.
  split; [apply (ok_allocated _ demo_store_ok)|].
  apply (get_all_newest_first_stable demo).
  apply (ok_allocated _ demo_store_ok).
Defined.

(** C5. For an identifier that no stored note has, [get_by_id] returns
    [None], [update] returns [None] and [delete] returns [False]; none
    raises, and the world is left as it was. *)
Theorem not_found_is_not_an_error w i d :
  allocated w → ¬ present w i →
  get_by_id i w = Some (None, w)
  ∧ update i d w = Some (None, w)
  ∧ delete i w = Some (false, w).
Proof.
  intros Hal Habs.
  assert (get_by_id i w = Some (None, w)) as Hg.
  { rewrite get_by_id_eq. apply first_with_id_absent; [done|].
    intros l n Hl Hn Hid. apply Habs. by exists l, n. }
  split_and!; [done|by apply update_absent|by apply delete_absent].
Qed.

Lemma not_found_is_not_an_error_witness :
  allocated demo ∧ ¬ present demo 7%N
  ∧ get_by_id 7%N demo = Some (None, demo)
  ∧ update 7%N (NoteUpdate.mk (Some "X") None [Title]) demo = Some (None, demo)
  ∧ delete 7%N demo = Some (false, demo).
Proof.
  split_and!; [apply (ok_allocated _ demo_store_ok)|apply demo_absent_7|..];
    apply (not_found_is_not_an_error demo 7%N
             (NoteUpdate.mk (Some "X") None [Title])
             (ok_allocated _ demo_store_ok) demo_absent_7).
Defined.

(** C6. For a stored note, [delete] with its identifier returns [True]
    and drops that one reference from the list: the heap is untouched,
    every other note is still stored as it was, the listing is one
    shorter and has neither the note nor its identifier, and a second
    [delete] with the same identifier returns [False]. *)
Theorem delete_removes_exactly_one w l n :
  store_ok w → stored w l n →
  ∃ w' pre post,
    delete (Note.id n) w = Some (true, w')
    ∧ _notes w = pre ++ l :: post ∧ _notes w' = pre ++ post
    ∧ heap w' = heap w
    ∧ (l ∉ _notes w')
    ∧ ¬ present w' (Note.id n)
    ∧ (∀ l' n', l' ≠ l → (stored w' l' n' ↔ stored w l' n'))
    ∧ (∃ ls, get_all w' = Some (ls, w') ∧ ls ≡ₚ _notes w'
             ∧ length ls = pred (length (_notes w)) ∧ l ∉ ls)
    ∧ delete (Note.id n) w' = Some (false, w').
Proof.
  intros Hok Hs. pose proof (get_by_id_stored w l n Hok Hs) as Hg.
  destruct (delete_found _ _ _ Hg) as (pre & post & n0 & E & Hn0 & _ & _ & Hd).
  set (w' := after_delete (pre ++ post) w) in *.
  pose proof (ok_nodup _ Hok) as Hnd. rewrite E in Hnd.
  apply NoDup_app in Hnd as (_ & Hpre & [Hpost _]%NoDup_cons).
  assert (l ∉ pre ++ post) as Hl.
  { intros [Hin|Hin]%elem_of_app; [|done]. apply (Hpre l Hin). left. }
  assert (∀ l', l' ∈ pre ++ post → l' ∈ _notes w) as Hsub.
  { intros l' Hin. rewrite E.
    apply elem_of_app in Hin as [?|?]; apply elem_of_app; [by left|].
    right. by right. }
  assert (allocated w') as Hal'.
  { intros l' Hin. apply (ok_allocated _ Hok), Hsub, Hin. }
  assert (¬ present w' (Note.id n)) as Habs.
  { intros (l' & n' & [Hin Hn'] & Hid).
    assert (l' = l) as ->; [|done].
    eapply (ok_unique _ Hok); [split; [by apply Hsub|done]|exact Hs|done]. }
  exists w', pre, post. split_and!; try done.
  - intros l' n' Hne. unfold stored. simpl. rewrite E.
    rewrite !elem_of_app, elem_of_cons. tauto.
  - destruct (get_all_spec w' Hal') as (ls & Hga & Hp & _).
    exists ls. split_and!; try done.
    + rewrite Hp, E. simpl. rewrite !length_app. simpl. lia.
    + by rewrite Hp.
  - apply delete_absent.
    rewrite get_by_id_eq. apply first_with_id_absent; [done|].
    intros l' n' Hin Hn' Hid. apply Habs. by exists l', n'.
Qed.

Lemma delete_removes_exactly_one_witness :
  store_ok demo
  ∧ stored demo 1%nat (Note.mk (Some "B") (Some "b") 1%N 2 3)
  ∧ ∃ w' pre post,
    delete 1%N demo = Some (true, w')
    ∧ _notes demo = pre ++ 1%nat :: post ∧ _notes w' = pre ++ post
    ∧ heap w' = heap demo
    ∧ (1%nat ∉ _notes w')
    ∧ ¬ present w' 1%N
    ∧ (∀ l' n', l' ≠ 1%nat → (stored w' l' n' ↔ stored demo l' n'))
    ∧ (∃ ls, get_all w' = Some (ls, w') ∧ ls ≡ₚ _notes w'
             ∧ length ls = 2%nat ∧ 1%nat ∉ ls)
    ∧ delete 1%N w' = Some (false, w').
Proof.
  split_and!; [apply demo_store_ok|apply demo_stored_B|].
  apply (delete_removes_exactly_one demo 1%nat
           (Note.mk (Some "B") (Some "b") 1%N 2 3)).
  - apply demo_store_ok.
  - apply demo_stored_B.
Defined.

(** C7, as the specification states it, fails: the list that [get_all]
    returned holds the store's own note objects, and an [update] that
    follows changes a note seen through that list. *)
Lemma snapshot_shares_notes :
  ∃ w',
    get_all demo = Some ([2; 1; 0]%nat, demo)
    ∧ update 1%N (NoteUpdate.mk (Some "B2") None [Title]) demo = Some (Some 1%nat, w')
    ∧ view demo [2; 1; 0]%nat !! 1%nat
      = Some (Some (Note.mk (Some "B") (Some "b") 1%N 2 3))
    ∧ view w' [2; 1; 0]%nat !! 1%nat
      = Some (Some (Note.mk (Some "B2") (Some "b") 1%N 2 6))
    ∧ view w' [2; 1; 0]%nat ≠ view demo [2; 1; 0]%nat.
Proof. eexists. split_and!; [reflexivity..|]. by intros [=]. Qed.

(** C7, amended. [get_all] returns a list object of its own, not the
    store's: whatever the store does afterwards, that list holds the same
    notes in the same order.  The notes in it are the store's own note
    objects: seen through the list, a [create], a [delete] or a [clear]
    leaves every field as it was, and an [update] leaves every note other
    than the updated one as it was, while the updated note shows the set
    fields of the payload, its other field, [id] and [created_at] as
    before, and the clock reading of the update as [updated_at]. *)
Theorem snapshot_frame o0 s o1 o :
  get_all_object o0 = Some (s, o1) → afterwards o1 o →
  ∃ snap,
    (∃ ns, lists o0 !! self_notes o0 = Some ns
           ∧ get_all (store_world o0 ns) = Some (snap, store_world o0 ns))
    ∧ s ≠ self_notes o
    ∧ lists o !! s = Some snap
    ∧ (∀ d l o', on_objects (create d) o = Some (l, o') → seen o' s = seen o s)
    ∧ (∀ i b o', on_objects (delete i) o = Some (b, o') → seen o' s = seen o s)
    ∧ (∀ o', on_objects clear o = Some (tt, o') → seen o' s = seen o s)
    ∧ (∀ i d r o', on_objects (update i d) o = Some (r, o') →
         lists o' !! s = Some snap
         ∧ ∀ l n, l ∈ snap → o_heap o !! l = Some n →
             o_heap o' !! l
             = Some (if decide (r = Some l)
                     then Note.set_updated_at (o_clock o (o_ticks o)) (merged d n)
                     else n)).
Proof.
  intros Hlist Haft.
  apply get_all_object_Some in Hlist as (ns0 & snap & Hns0 & Hg & -> & ->).
  pose proof (lookup_lt_Some _ _ _ Hns0) as Hlt0.
  assert (lists
            (mkObjects (lists o0 ++ [snap]) (self_notes o0) (o_heap o0)
               (o_clock o0) (o_ticks o0) (o_uuids o0) (o_drawn o0))
          !! length (lists o0) = Some snap) as Hsnap1.
  { simpl. by apply list_lookup_middle. }
  destruct (afterwards_keeps _ o (length (lists o0)) Haft) as (Hself & Hsame & Halloc).
  { simpl. lia. }
  { by rewrite Hsnap1. }
  simpl in Hself, Halloc. rewrite Hsnap1 in Hsame.
  assert (length (lists o0) ≠ self_notes o) as Hne by (rewrite Hself; lia).
  assert (∀ l, l ∈ snap → is_Some (o_heap o !! l)) as Hsnap_alloc.
  { intros l Hl. apply Halloc.
    pose proof (get_all_allocated _ _ _ Hg) as Hal.
    apply get_all_frame in Hg as [_ Hp]. rewrite Hp in Hl. by apply Hal in Hl. }
  assert (∀ A (m : M A) a o',
            on_objects m o = Some (a, o') →
            ∃ ns w', m (store_world o ns) = Some (a, w')
                     ∧ lists o' !! length (lists o0) = Some snap
                     ∧ o_heap o' = heap w') as Hcall.
  { intros A m a o' (ns & w' & _ & Hm & ->)%on_objects_Some.
    exists ns, w'. split_and!; [done| |done].
    simpl. by rewrite list_lookup_insert_ne. }
  exists snap. split_and!; try done.
  - by exists ns0.
  - intros d l o' (ns & w' & Hm & Hl' & Hheap)%Hcall.
    apply create_Some in Hm as (_ & _ & ->).
    unfold seen. rewrite Hl', Hsame, Hheap. f_equal.
    apply list_fmap_ext. intros k l0 Hl0. simpl.
    destruct (Hsnap_alloc l0) as [n Hn]; [by eapply list_elem_of_lookup_2|].
    by apply lookup_app_l, lookup_lt_Some with n.
  - intros i b o' (ns & w' & Hm & Hl' & Hheap)%Hcall.
    unfold seen. rewrite Hl', Hsame, Hheap.
    by apply delete_Some in Hm
      as [(_ & -> & _)|(l0 & pre & post & _ & _ & _ & ->)].
  - intros o' (ns & w' & Hm & Hl' & Hheap)%Hcall.
    unfold seen. rewrite Hl', Hsame, Hheap.
    unfold clear, write_notes in Hm. by injection Hm as <-.
  - intros i d r o' (ns & w' & Hm & Hl' & Hheap)%Hcall.
    split; [done|]. intros l n Hl Hn. rewrite Hheap.
    apply update_Some in Hm
      as [(-> & -> & _)|(l0 & n0 & -> & _ & _ & Hn0 & _ & ->)].
    + by rewrite decide_False.
    + simpl in *. destruct (decide (l0 = l)) as [->|Hne0].
      * rewrite decide_True by done.
        rewrite list_lookup_insert_eq by (by eapply lookup_lt_Some).
        by replace n0 with n by congruence.
      * rewrite decide_False by congruence.
        by rewrite list_lookup_insert_ne.
Qed.

Lemma snapshot_frame_witness :
  get_all_object demo_objects = Some (1%nat, demo_listed)
  ∧ afterwards demo_listed demo_listed
  ∧ ∃ snap,
      (∃ ns, lists demo_objects !! self_notes demo_objects = Some ns
             ∧ get_all (store_world demo_objects ns)
               = Some (snap, store_world demo_objects ns))
      ∧ 1%nat ≠ self_notes demo_listed
      ∧ lists demo_listed !! 1%nat = Some snap
      ∧ (∀ d l o', on_objects (create d) demo_listed = Some (l, o') →
                   seen o' 1%nat = seen demo_listed 1%nat)
      ∧ (∀ i b o', on_objects (delete i) demo_listed = Some (b, o') →
                   seen o' 1%nat = seen demo_listed 1%nat)
      ∧ (∀ o', on_objects clear demo_listed = Some (tt, o') →
               seen o' 1%nat = seen demo_listed 1%nat)
      ∧ (∀ i d r o', on_objects (update i d) demo_listed = Some (r, o') →
           lists o' !! 1%nat = Some snap
           ∧ ∀ l n, l ∈ snap → o_heap demo_listed !! l = Some n →
               o_heap o' !! l
               = Some (if decide (r = Some l)
                       then Note.set_updated_at
                              (o_clock demo_listed (o_ticks demo_listed))
                              (merged d n)
                       else n)).
Proof.
  split; [reflexivity|]. split; [constructor|].
  apply (snapshot_frame demo_objects 1%nat demo_listed demo_listed).
  - reflexivity.
  - constructor.
Defined.

(** C8. Under a clock that never goes back, every stored note of every
    world the store can reach has [created_at <= updated_at], and so has
    every stored note after one more operation, whichever it is. *)
Theorem created_at_le_updated_at clk ids w :
  monotone clk → reachable (init clk ids) w →
  (∀ l n, stored w l n → Note.created_at n ≤ Note.updated_at n)
  ∧ (∀ o w', run_op o w = Some (tt, w') →
       ∀ l n, stored w' l n → Note.created_at n ≤ Note.updated_at n).
Proof.
  intros Hm Hr.
  assert (∀ v, reachable (init clk ids) v →
               ∀ l n, stored v l n → Note.created_at n ≤ Note.updated_at n) as H.
  { intros v Hv l n [_ Hn].
    pose proof (reachable_inv _ _ (inv_init clk ids) Hv) as Hinv.
    destruct (reachable_oracles _ _ Hv) as [Hc _]. simpl in Hc.
    eapply stamped_le; [by rewrite Hc|]. by eapply inv_stamped. }
  split; [by apply H|].
  intros o w' Hstep. apply H. by eapply reach_step.
Qed.

Lemma created_at_le_updated_at_witness :
  monotone tick_clock
  ∧ reachable (init tick_clock serial_ids) demo
  ∧ (∀ l n, stored demo l n → Note.created_at n ≤ Note.updated_at n)
  ∧ (∀ o w', run_op o demo = Some (tt, w') →
       ∀ l n, stored w' l n → Note.created_at n ≤ Note.updated_at n).
Proof.
  split; [apply tick_clock_monotone|]. split; [apply demo_reachable|].
  apply (created_at_le_updated_at tick_clock serial_ids demo).
  - apply tick_clock_monotone.
  - apply demo_reachable.
Defined.

(** C9. A request body in which a field is explicitly [null] passes the
    validation of [NoteUpdate], whatever the bounds of the field, with the
    field marked as set and holding [None]; and for every payload in which
    a field is set to [None], [update] writes [None] into that field of
    the stored note, without validation, the rest of the note being
    merged as for any payload. *)
Theorem update_writes_null w l n f :
  store_ok w → stored w l n →
  (∀ body,
     member f body = Some JNull →
     (∀ g s, member g body = Some (JString s) → bounds g s = true) →
     (∀ g, member g body ≠ Some JOther) →
     ∃ d, NoteUpdate.model_validate body = Some d)
  ∧ (∀ body d,
       NoteUpdate.model_validate body = Some d → member f body = Some JNull →
       f ∈ NoteUpdate.fields_set d ∧ NoteUpdate.get_field f d = None)
  ∧ (∀ d,
       f ∈ NoteUpdate.fields_set d → NoteUpdate.get_field f d = None →
       ∃ w' n',
         update (Note.id n) d w = Some (Some l, w')
         ∧ _notes w' = _notes w
         ∧ heap w' = <[l := n']> (heap w)
         ∧ heap w' !! l = Some n'
         ∧ Note.get_field f n' = None
         ∧ (∀ g, Note.get_field g n' =
                 if bool_decide (g ∈ NoteUpdate.fields_set d)
                 then NoteUpdate.get_field g d else Note.get_field g n)
         ∧ Note.id n' = Note.id n
         ∧ Note.created_at n' = Note.created_at n
         ∧ Note.updated_at n' = clock w (ticks w)).
Proof.
  intros Hok Hs. split_and!.
  - intros body _ Hstr Hother. by apply model_validate_accepts.
  - intros body d Hv Hnull.
    pose proof (model_validate_field body d f Hv) as Hf. rewrite Hnull in Hf.
    destruct Hf as [Hin Hval]. split; [done|]. simpl in Hval. congruence.
  - intros d Hset Hnone.
    pose proof (get_by_id_stored w l n Hok Hs) as Hg. destruct Hs as [Hin Hn].
    pose proof (lookup_lt_Some _ _ _ Hn) as Hlt.
    assert (∀ g, Note.get_field g
                   (Note.set_updated_at (clock w (ticks w)) (merged d n)) =
                 if bool_decide (g ∈ NoteUpdate.fields_set d)
                 then NoteUpdate.get_field g d else Note.get_field g n) as Hmerge.
    { by intros []. }
    exists (after_update d l n w),
           (Note.set_updated_at (clock w (ticks w)) (merged d n)).
    split_and!; try done.
    + by apply update_found.
    + simpl. by apply list_lookup_insert_eq.
    + by rewrite Hmerge, bool_decide_true.
Qed.

Lemma update_writes_null_witness :
  store_ok demo
  ∧ stored demo 1%nat (Note.mk (Some "B") (Some "b") 1%N 2 3)
  ∧ (∀ body,
       member Title body = Some JNull →
       (∀ g s, member g body = Some (JString s) → bounds g s = true) →
       (∀ g, member g body ≠ Some JOther) →
       ∃ d, NoteUpdate.model_validate body = Some d)
  ∧ (∀ body d,
       NoteUpdate.model_validate body = Some d → member Title body = Some JNull →
       Title ∈ NoteUpdate.fields_set d ∧ NoteUpdate.get_field Title d = None)
  ∧ (∀ d,
       Title ∈ NoteUpdate.fields_set d → NoteUpdate.get_field Title d = None →
       ∃ w' n',
         update 1%N d demo = Some (Some 1%nat, w')
         ∧ _notes w' = _notes demo
         ∧ heap w' = <[1%nat := n']> (heap demo)
         ∧ heap w' !! 1%nat = Some n'
         ∧ Note.get_field Title n' = None
         ∧ (∀ g, Note.get_field g n' =
                 if bool_decide (g ∈ NoteUpdate.fields_set d)
                 then NoteUpdate.get_field g d
                 else Note.get_field g (Note.mk (Some "B") (Some "b") 1%N 2 3))
         ∧ Note.id n' = 1%N
         ∧ Note.created_at n' = 2
         ∧ Note.updated_at n' = clock demo (ticks demo)).
Proof.
  split_and!; [apply demo_store_ok|apply demo_stored_B|..];
    apply (update_writes_null demo 1%nat
             (Note.mk (Some "B") (Some "b") 1%N 2 3) Title
             demo_store_ok demo_stored_B).
Defined.

(** C10. [get_all] and [get_by_id] are reads without side effect: each
    returns, and the world after the call (the store's list, its order,
    and every field of every note) is the world before it. *)
Theorem reads_leave_store_unchanged w i :
  allocated w →
  (∃ ls, get_all w = Some (ls, w)) ∧ (∃ r, get_by_id i w = Some (r, w))
  ∧ (∀ ls w', get_all w = Some (ls, w') → w' = w)
  ∧ (∀ r w', get_by_id i w = Some (r, w') → w' = w).
Proof.
  intros Hal. split_and!.
  - destruct (get_all_spec w Hal) as (ls & Hg & _). by exists ls.
  - by apply get_by_id_total.
  - intros ls w' Hg. by apply get_all_frame in Hg as [-> _].
  - intros r w'. apply get_by_id_frame.
Qed.

Lemma reads_leave_store_unchanged_witness :
  allocated demo
  ∧ (∃ ls, get_all demo = Some (ls, demo))
  ∧ (∃ r, get_by_id 1%N demo = Some (r, demo))
  ∧ (∀ ls w', get_all demo = Some (ls, w') → w' = demo)
  ∧ (∀ r w', get_by_id 1%N demo = Some (r, w') → w' = demo).
Proof.
  split; [apply (ok_allocated _ demo_store_ok)|].
  apply (reads_leave_store_unchanged demo 1%N).
  apply (ok_allocated _ demo_store_ok).
Defined.

(** ** More on sorting and listing *)

Section sort_filter.
Context (P : datetime * ref → Prop) `{!∀ x, Decision (P x)}.

Lemma filter_by_key_comm t (l : list (datetime * ref)) :
  filter (λ y, y.1 = t) (filter P l) = filter P (filter (λ y, y.1 = t) l).
Proof.
  induction l as [|x l IH]; [done|].
  destruct (decide (P x)) as [HP|HP], (decide (x.1 = t)) as [Ht|Ht].
  - rewrite (filter_cons_True P) by done.
    rewrite !(filter_cons_True (λ y, y.1 = t)) by done.
    rewrite (filter_cons_True P) by done. by rewrite IH.
  - rewrite (filter_cons_True P) by done.
    rewrite !(filter_cons_False (λ y, y.1 = t)) by done. done.
  - rewrite (filter_cons_False P) by done.
    rewrite (filter_cons_True (λ y, y.1 = t) x l) by done.
    rewrite (filter_cons_False P) by done. done.
  - rewrite (filter_cons_False P) by done.
    rewrite (filter_cons_False (λ y, y.1 = t) x l) by done. done.
Qed.

Lemma StronglySorted_filter_keys (R : relation (datetime * ref)) l :
  StronglySorted R l → StronglySorted R (filter P l).
Proof.
  induction 1 as [|x l Hs IH Hx]; [constructor|].
  rewrite filter_cons. case_decide; [|done].
  constructor; [done|]. rewrite Forall_forall in Hx.
  apply Forall_forall. intros y [_ Hy]%list_elem_of_filter. by apply Hx.
Qed.

(** Sorting commutes with the removal of elements. *)
Lemma stable_sort_filter l : stable_sort (filter P l) = filter P (stable_sort l).
Proof.
  apply sorted_stable_unique.
  - apply stable_sort_sorted.
  - apply StronglySorted_filter_keys, stable_sort_sorted.
  - intros t. by rewrite stable_sort_stable, !filter_by_key_comm, stable_sort_stable.
Qed.
End sort_filter.

Lemma filter_Forall_id {A} (Q : A → Prop) `{!∀ x, Decision (Q x)} (l : list A) :
  Forall Q l → filter Q l = l.
Proof.
  induction 1 as [|x l Hx _ IH]; [done|]. by rewrite filter_cons_True, IH.
Qed.

Lemma filter_refs (Q : ref → Prop) `{!∀ l, Decision (Q l)}
    (ks : list (datetime * ref)) :
  (filter (λ x, Q x.2) ks).*2 = filter Q ks.*2.
Proof.
  induction ks as [|x ks IH]; [done|].
  rewrite fmap_cons, !filter_cons. case_decide; [|done]. by rewrite fmap_cons, IH.
Qed.

Lemma sorted_filter_refs (Q : ref → Prop) `{!∀ l, Decision (Q l)}
    (ks : list (datetime * ref)) :
  sorted true (filter (λ x, Q x.2) ks) = filter Q (sorted true ks).
Proof.
  unfold sorted.
  rewrite <- filter_reverse, (stable_sort_filter (λ x, Q x.2)), <- filter_reverse.
  apply filter_refs.
Qed.

Lemma decorate_filter (Q : ref → Prop) `{!∀ l, Decision (Q l)} ns w ks :
  decorate ns w = Some (ks, w) →
  decorate (filter Q ns) w = Some (filter (λ x, Q x.2) ks, w).
Proof.
  revert ks. induction ns as [|l ns IH]; intros ks.
  { by inversion 1. }
  rewrite decorate_cons. destruct (heap w !! l) as [n|] eqn:Hn; [|done].
  destruct (decorate ns w) as [[ks0 w0]|] eqn:Hd; [|done].
  inversion 1; subst. rewrite !filter_cons. simpl.
  case_decide; [|by apply IH].
  by rewrite decorate_cons, Hn, (IH ks0).
Qed.

(** Decoration reads the creation times only. *)
Lemma decorate_ext ns w w' ks :
  (∀ l, l ∈ ns →
        Note.created_at <$> heap w' !! l = Note.created_at <$> heap w !! l) →
  decorate ns w = Some (ks, w) → decorate ns w' = Some (ks, w').
Proof.
  revert ks. induction ns as [|l ns IH]; intros ks Hext.
  { by inversion 1. }
  rewrite !decorate_cons. destruct (heap w !! l) as [n|] eqn:Hn; [|done].
  destruct (decorate ns w) as [[ks0 w0]|] eqn:Hd; [|done].
  inversion 1; subst.
  pose proof (Hext l ltac:(left)) as Hl. rewrite Hn in Hl.
  destruct (heap w' !! l) as [n'|]; [|done]. injection Hl as ->.
  rewrite (IH ks0); [done| |done].
  intros l' Hl'. apply Hext. by right.
Qed.

Lemma decorate_app ns1 ns2 w ks1 ks2 :
  decorate ns1 w = Some (ks1, w) → decorate ns2 w = Some (ks2, w) →
  decorate (ns1 ++ ns2) w = Some (ks1 ++ ks2, w).
Proof.
  revert ks1. induction ns1 as [|l ns1 IH]; intros ks1.
  { by inversion 1. }
  rewrite <- app_comm_cons, !decorate_cons.
  destruct (heap w !! l) as [n|]; [|done].
  destruct (decorate ns1 w) as [[ks0 w0]|] eqn:Hd; [|done].
  inversion 1; subst. intros H2. by rewrite (IH ks0).
Qed.

Lemma get_all_decorate w ls :
  get_all w = Some (ls, w) ↔
  ∃ ks, decorate (_notes w) w = Some (ks, w) ∧ ls = sorted true ks.
Proof.
  unfold get_all. munfold. split.
  - destruct (decorate (_notes w) w) as [[ks w0]|] eqn:Hd; [|done].
    destruct (decorate_spec _ _ _ _ Hd) as (-> & _). inversion 1. by exists ks.
  - intros (ks & -> & ->). done.
Qed.

(** Look-up reads the identifiers only. *)
Lemma first_with_id_ext i ns w w' r :
  (∀ l, l ∈ ns → Note.id <$> heap w' !! l = Note.id <$> heap w !! l) →
  first_with_id i ns w = Some (r, w) → first_with_id i ns w' = Some (r, w').
Proof.
  induction ns as [|l ns IH]; intros Hext.
  { by inversion 1. }
  rewrite !first_with_id_cons. destruct (heap w !! l) as [n|] eqn:Hn; [|done].
  pose proof (Hext l ltac:(left)) as Hl. rewrite Hn in Hl.
  destruct (heap w' !! l) as [n'|]; [|done]. injection Hl as ->.
  destruct (N.eqb _ _); [by inversion 1|].
  apply IH. intros l' Hl'. apply Hext. by right.
Qed.

(** ** The invariant of unique identifiers, operation by operation *)

Lemma store_ok_create d w :
  store_ok w → ¬ present w (uuids w (drawn w)) → store_ok (after_create d w).
Proof.
  intros [Hal Hnd Huq] Hfresh.
  assert (length (heap w) ∉ _notes w) as Hnew.
  { intros [n Hn%lookup_lt_Some]%Hal. lia. }
  assert (∀ l n, stored (after_create d w) l n →
            stored w l n ∨ l = length (heap w) ∧ n = new_note d w) as Hcases.
  { intros l n [Hin Hn]. simpl in *.
    apply elem_of_app in Hin as [Hin| ->%list_elem_of_singleton].
    - left. split; [done|]. destruct (Hal l Hin) as [n0 Hn0].
      rewrite (lookup_app_l_Some _ _ _ _ Hn0) in Hn. congruence.
    - right. split; [done|]. rewrite list_lookup_middle in Hn by done. congruence. }
  split.
  - intros l [Hl| ->%list_elem_of_singleton]%elem_of_app; simpl.
    + destruct (Hal l Hl) as [n Hn]. exists n. by apply lookup_app_l_Some.
    + exists (new_note d w). by apply list_lookup_middle.
  - simpl. apply NoDup_app. split_and!; [done| |apply NoDup_singleton].
    by intros l Hl ->%list_elem_of_singleton.
  - intros l1 l2 n1 n2 H1 H2 Hid.
    destruct (Hcases _ _ H1) as [H1'|[-> ->]], (Hcases _ _ H2) as [H2'|[-> ->]].
    + by eapply Huq.
    + exfalso. apply Hfresh. by exists l1, n1.
    + exfalso. apply Hfresh. by exists l2, n2.
    + done.
Qed.

Lemma store_ok_update d l n w :
  store_ok w → stored w l n → store_ok (after_update d l n w).
Proof.
  intros [Hal Hnd Huq] [Hin Hn].
  pose proof (lookup_lt_Some _ _ _ Hn) as Hlt.
  assert (∀ l' n', stored (after_update d l n w) l' n' →
            ∃ n0, stored w l' n0 ∧ Note.id n0 = Note.id n') as Hcases.
  { intros l' n' [Hin' Hn']. simpl in *.
    apply list_lookup_insert_Some in Hn' as [(-> & <- & _)|[Hne Hn']].
    - by exists n.
    - by exists n'. }
  split; [|done|].
  - intros l' Hl'. simpl. apply list_lookup_insert_is_Some. by apply Hal.
  - intros l1 l2 n1 n2 (m1 & H1 & E1)%Hcases (m2 & H2 & E2)%Hcases Hid.
    eapply Huq; [done..|congruence].
Qed.

Lemma store_ok_remove pre l post w :
  store_ok w → _notes w = pre ++ l :: post →
  store_ok (after_delete (pre ++ post) w).
Proof.
  intros [Hal Hnd Huq] E.
  assert (∀ l', l' ∈ pre ++ post → l' ∈ _notes w) as Hsub.
  { intros l' Hin. rewrite E.
    apply elem_of_app in Hin as [?|?]; apply elem_of_app; [by left|].
    right. by right. }
  split; simpl.
  - intros l' Hl'. by apply Hal, Hsub.
  - rewrite E in Hnd. apply NoDup_app in Hnd as (Hpre & Hpp & [_ Hpost]%NoDup_cons).
    apply NoDup_app. split_and!; try done.
    intros x Hx Hx'. apply (Hpp x Hx). by right.
  - intros l1 l2 n1 n2 [H1 E1] [H2 E2]. simpl in *.
    apply Huq; split; auto.
Qed.

Lemma reachable_trans w0 w w' :
  reachable w0 w → reachable w w' → reachable w0 w'.
Proof.
  intros H0. induction 1 as [|v o v' _ IH Hstep]; [done|].
  by eapply reach_step.
Qed.

(** A cell keeps its [id] and [created_at] in every operation, and its
    [updated_at] moves forward only. *)
Lemma effect_cell w w' l n :
  inv w → monotone (clock w) → effect w w' → heap w !! l = Some n →
  ∃ n', heap w' !! l = Some n'
        ∧ Note.id n' = Note.id n
        ∧ Note.created_at n' = Note.created_at n
        ∧ Note.updated_at n ≤ Note.updated_at n'.
Proof.
  intros Hinv Hm Heff Hn.
  destruct Heff as [|d Hv|d l0 n0 [Hin Hn0]|pre l0 post E|]; simpl;
    try (exists n; split_and!; [done..|lia]).
  - exists n. split_and!; [by apply lookup_app_l_Some|done..|lia].
  - destruct (decide (l0 = l)) as [->|Hne].
    + rewrite list_lookup_insert_eq by (by eapply lookup_lt_Some).
      assert (n0 = n) as -> by congruence.
      eexists. split_and!; try done. simpl.
      by apply stamped_le, (inv_stamped _ Hinv l).
    + rewrite list_lookup_insert_ne by done.
      exists n. split_and!; [done..|lia].
Qed.

(** ** More properties of the store *)

(** [clear] empties the store, whatever it held: afterwards the listing
    is empty and every identifier is absent; the note objects themselves
    are left as they are. *)
Theorem clear_empties w :
  ∃ w', clear w = Some (tt, w')
        ∧ _notes w' = [] ∧ heap w' = heap w
        ∧ get_all w' = Some ([], w')
        ∧ (∀ i, get_by_id i w' = Some (None, w'))
        ∧ (∀ i d, update i d w' = Some (None, w'))
        ∧ (∀ i, delete i w' = Some (false, w')).
Proof.
  exists (after_delete [] w). by split_and!.
Qed.

(** As long as [uuid4] does not repeat an identifier, every world that
    the store reaches keeps the identifiers of its notes unique, holds no
    note twice and no dangling reference. *)
Theorem reachable_ids_unique clk ids w :
  Inj (=) (=) ids → reachable (init clk ids) w → store_ok w.
Proof.
  intros Hinj Hr. apply inv_store_ok.
  - eapply reachable_inv; [apply inv_init|done].
  - destruct (reachable_oracles _ _ Hr) as [_ ->]. done.
Qed.

Lemma reachable_ids_unique_witness :
  Inj (=) (=) serial_ids ∧ reachable (init tick_clock serial_ids) demo
  ∧ store_ok demo.
Proof.
  split; [apply serial_ids_inj|]. split; [apply demo_reachable|].
  apply (reachable_ids_unique tick_clock serial_ids demo).
  - apply serial_ids_inj.
  - apply demo_reachable.
Defined.

(** Whatever the store does afterwards, a note object keeps its [id] and
    its [created_at], is never freed, and under a clock that never goes
    back its [updated_at] never decreases. *)
Theorem note_identity_is_kept clk ids w w' l n :
  monotone clk → reachable (init clk ids) w → reachable w w' →
  heap w !! l = Some n →
  ∃ n', heap w' !! l = Some n'
        ∧ Note.id n' = Note.id n
        ∧ Note.created_at n' = Note.created_at n
        ∧ Note.updated_at n ≤ Note.updated_at n'.
Proof.
  intros Hm Hr0 Hr Hn. induction Hr as [|v o v' Hv IH Hstep].
  { exists n. split_and!; [done..|lia]. }
  destruct IH as (n1 & Hn1 & Hid & Hca & Hua).
  pose proof (reachable_trans _ _ _ Hr0 Hv) as Hrv.
  destruct (effect_cell v v' l n1) as (n2 & Hn2 & Hid2 & Hca2 & Hua2); try done.
  - eapply reachable_inv; [apply inv_init|done].
  - destruct (reachable_oracles _ _ Hrv) as [-> _]. done.
  - by eapply run_op_effect.
  - exists n2. split_and!; [done|congruence..|lia].
Qed.

Lemma note_identity_is_kept_witness :
  monotone tick_clock
  ∧ reachable (init tick_clock serial_ids) demo
  ∧ reachable demo (after_update (NoteUpdate.mk (Some "B2") None [Title]) 1%nat
                      (Note.mk (Some "B") (Some "b") 1%N 2 3) demo)
  ∧ heap demo !! 1%nat = Some (Note.mk (Some "B") (Some "b") 1%N 2 3)
  ∧ ∃ n', heap (after_update (NoteUpdate.mk (Some "B2") None [Title]) 1%nat
                  (Note.mk (Some "B") (Some "b") 1%N 2 3) demo) !! 1%nat = Some n'
          ∧ Note.id n' = 1%N
          ∧ Note.created_at n' = 2
          ∧ 3 ≤ Note.updated_at n'.
Proof.
  assert (reachable demo
            (after_update (NoteUpdate.mk (Some "B2") None [Title]) 1%nat
               (Note.mk (Some "B") (Some "b") 1%N 2 3) demo)) as Hr.
  { apply (reach_step _ demo (Update 1%N (NoteUpdate.mk (Some "B2") None [Title])));
      [constructor|reflexivity]. }
  split; [apply tick_clock_monotone|]. split; [apply demo_reachable|].
  split; [exact Hr|]. split; [reflexivity|].
  apply (note_identity_is_kept tick_clock serial_ids demo _ 1%nat
           (Note.mk (Some "B") (Some "b") 1%N 2 3)).
  - apply tick_clock_monotone.
  - apply demo_reachable.
  - exact Hr.
  - reflexivity.
Defined.

(** [update] never reorders: the listing after an update, found or not,
    is the listing before it, and every look-up by identifier finds what
    it found before. *)
Theorem update_keeps_listing w i d r w' ls :
  get_all w = Some (ls, w) → update i d w = Some (r, w') →
  get_all w' = Some (ls, w')
  ∧ ∀ j r', get_by_id j w = Some (r', w) → get_by_id j w' = Some (r', w').
Proof.
  intros Hg Hu.
  apply update_Some in Hu as [(_ & -> & _)|(l & n & _ & _ & Hin & Hn & _ & ->)];
    [done|].
  assert (∀ l', heap (after_update d l n w) !! l' =
                if decide (l = l') then Some (Note.set_updated_at (clock w (ticks w)) (merged d n))
                else heap w !! l') as Hcell.
  { intros l'. simpl. destruct (decide (l = l')) as [<-|Hne].
    - apply list_lookup_insert_eq. by eapply lookup_lt_Some.
    - by apply list_lookup_insert_ne. }
  split.
  - apply get_all_decorate in Hg as (ks & Hd & ->).
    apply get_all_decorate. exists ks. split; [|done].
    apply (decorate_ext _ w); [|done].
    intros l' _. rewrite Hcell. case_decide; [subst; by rewrite Hn|done].
  - intros j r' Hj. rewrite get_by_id_eq in *.
    apply (first_with_id_ext _ _ w); [|done].
    intros l' _. rewrite Hcell. case_decide; [subst; by rewrite Hn|done].
Qed.

Lemma update_keeps_listing_witness :
  get_all demo = Some ([2; 1; 0]%nat, demo)
  ∧ update 1%N (NoteUpdate.mk (Some "B2") None [Title]) demo
    = Some (Some 1%nat,
            after_update (NoteUpdate.mk (Some "B2") None [Title]) 1%nat
              (Note.mk (Some "B") (Some "b") 1%N 2 3) demo)
  ∧ get_all (after_update (NoteUpdate.mk (Some "B2") None [Title]) 1%nat
               (Note.mk (Some "B") (Some "b") 1%N 2 3) demo)
    = Some ([2; 1; 0]%nat,
            after_update (NoteUpdate.mk (Some "B2") None [Title]) 1%nat
              (Note.mk (Some "B") (Some "b") 1%N 2 3) demo).
Proof.
  split; [reflexivity|]. split; [reflexivity|].
  apply (update_keeps_listing demo 1%N (NoteUpdate.mk (Some "B2") None [Title])
           (Some 1%nat) _ [2; 1; 0]%nat); reflexivity.
Defined.

(** [delete] never reorders either: the listing after the deletion of a
    stored note is the listing before it without that note. *)
Theorem delete_keeps_order w l n ls :
  store_ok w → stored w l n → get_all w = Some (ls, w) →
  ∃ w', delete (Note.id n) w = Some (true, w')
        ∧ get_all w' = Some (filter (λ x, x ≠ l) ls, w').
Proof.
  intros Hok Hs Hg. pose proof (get_by_id_stored w l n Hok Hs) as Hfound.
  destruct (delete_found _ _ _ Hfound) as (pre & post & n0 & E & _ & _ & _ & Hd).
  exists (after_delete (pre ++ post) w). split; [done|].
  pose proof (ok_nodup _ Hok) as Hnd. rewrite E in Hnd.
  apply NoDup_app in Hnd as (_ & Hpre & [Hpost _]%NoDup_cons).
  assert (pre ++ post = filter (λ x, x ≠ l) (_notes w)) as Hfilter.
  { rewrite E, filter_app, filter_cons_False by (intros Hne; by apply Hne).
    rewrite !filter_Forall_id; [done|..]; apply Forall_forall.
    - by intros x Hx ->.
    - intros x Hx ->. apply (Hpre l Hx). left. }
  apply get_all_decorate in Hg as (ks & Hdec & ->).
  apply get_all_decorate. simpl _notes. rewrite Hfilter.
  exists (filter (λ x, x.2 ≠ l) ks). split.
  - apply (decorate_ext _ w); [done|].
    exact (decorate_filter (λ x, x ≠ l) _ _ _ Hdec).
  - symmetry. exact (sorted_filter_refs (λ x, x ≠ l) ks).
Qed.

Lemma delete_keeps_order_witness :
  store_ok demo
  ∧ stored demo 1%nat (Note.mk (Some "B") (Some "b") 1%N 2 3)
  ∧ get_all demo = Some ([2; 1; 0]%nat, demo)
  ∧ ∃ w', delete 1%N demo = Some (true, w')
          ∧ get_all w' = Some (filter (λ x, x ≠ 1%nat) [2; 1; 0]%nat, w').
Proof.
  split; [apply demo_store_ok|]. split; [apply demo_stored_B|].
  split; [reflexivity|].
  apply (delete_keeps_order demo 1%nat (Note.mk (Some "B") (Some "b") 1%N 2 3)
           [2; 1; 0]%nat).
  - apply demo_store_ok.
  - apply demo_stored_B.
  - reflexivity.
Defined.

(** The decorated list of the store after a create: that of before, and
    the new note with the clock reading it was created at. *)
Lemma decorate_after_create d w ks :
  allocated w → decorate (_notes w) w = Some (ks, w) →
  decorate (_notes (after_create d w)) (after_create d w)
  = Some (ks ++ [(clock w (ticks w), length (heap w))], after_create d w).
Proof.
  intros Hal Hd. simpl _notes. apply decorate_app.
  - apply (decorate_ext _ w); [|done].
    intros l Hl. simpl. destruct (Hal l Hl) as [n Hn].
    by rewrite (lookup_app_l_Some _ _ _ _ Hn), Hn.
  - rewrite decorate_cons. simpl heap. by rewrite list_lookup_middle.
Qed.

(** [create] with valid fields succeeds on every store; the listing after
    it holds the new note and, the new note apart, is the listing of
    before. *)
Theorem create_extends_listing w d ls :
  NoteCreate.valid d = true → get_all w = Some (ls, w) →
  ∃ l w' ls',
    create d w = Some (l, w')
    ∧ get_all w' = Some (ls', w')
    ∧ l ∈ ls' ∧ (l ∉ ls)
    ∧ filter (λ x, x ≠ l) ls' = ls
    ∧ length ls' = S (length ls).
Proof.
  intros Hv Hg. pose proof (get_all_allocated _ _ _ Hg) as Hal.
  apply get_all_decorate in Hg as (ks & Hd & ->).
  destruct (decorate_spec _ _ _ _ Hd) as (_ & Hks & _).
  set (l := length (heap w)). set (c := clock w (ticks w)).
  assert (l ∉ _notes w) as Hnew.
  { intros [n Hn%lookup_lt_Some]%Hal. unfold l in Hn. lia. }
  pose proof (decorate_after_create d w ks Hal Hd) as Hd'. fold l c in Hd'.
  exists l, (after_create d w), (sorted true (ks ++ [(c, l)])).
  assert (filter (λ x : datetime * ref, x.2 ≠ l) (ks ++ [(c, l)]) = ks) as Hf.
  { rewrite filter_app, filter_cons_False by (simpl; intros Hne; by apply Hne).
    rewrite filter_nil, app_nil_r. apply filter_Forall_id, Forall_forall.
    intros [k x] Hx Heq. simpl in Heq. subst x. apply Hnew.
    rewrite <- Hks. apply list_elem_of_fmap. by exists (k, l). }
  split_and!.
  - by apply create_valid.
  - apply get_all_decorate. by exists (ks ++ [(c, l)]).
  - rewrite sorted_reverse_perm, fmap_app. apply elem_of_app. right. left.
  - by rewrite sorted_reverse_perm, Hks.
  - by rewrite <- (sorted_filter_refs (λ x, x ≠ l) (ks ++ [(c, l)])), Hf.
  - rewrite !sorted_reverse_perm, fmap_app, length_app. simpl. lia.
Qed.

Lemma create_extends_listing_witness :
  NoteCreate.valid (NoteCreate.mk "D" "d") = true
  ∧ get_all demo = Some ([2; 1; 0]%nat, demo)
  ∧ ∃ l w' ls',
      create (NoteCreate.mk "D" "d") demo = Some (l, w')
      ∧ get_all w' = Some (ls', w')
      ∧ l ∈ ls' ∧ (l ∉ [2; 1; 0]%nat)
      ∧ filter (λ x, x ≠ l) ls' = [2; 1; 0]%nat
      ∧ length ls' = 4%nat.
Proof.
  split; [reflexivity|]. split; [reflexivity|].
  apply (create_extends_listing demo (NoteCreate.mk "D" "d") [2; 1; 0]%nat);
    reflexivity.
Defined.

(** A note created at a clock reading later than the [created_at] of
    every stored note is listed first, before the listing of before. *)
Theorem create_lists_newest_first w d ls :
  NoteCreate.valid d = true → get_all w = Some (ls, w) →
  (∀ l n, stored w l n → Note.created_at n < clock w (ticks w)) →
  ∃ l w', create d w = Some (l, w') ∧ get_all w' = Some (l :: ls, w').
Proof.
  intros Hv Hg Hlater. pose proof (get_all_allocated _ _ _ Hg) as Hal.
  apply get_all_decorate in Hg as (ks & Hd & ->).
  destruct (decorate_spec _ _ _ _ Hd) as (_ & Hks & Hkeyed).
  exists (length (heap w)), (after_create d w).
  split; [by apply create_valid|].
  apply get_all_decorate. eexists. split; [by apply decorate_after_create|].
  unfold sorted. rewrite reverse_snoc. simpl.
  fold (stable_sort (reverse ks)). rewrite insert_key_last.
  - by rewrite reverse_snoc.
  - rewrite stable_sort_perm, reverse_Permutation.
    apply Forall_forall. intros [k x] Hx. simpl.
    rewrite Forall_forall in Hkeyed. specialize (Hkeyed _ Hx).
    unfold keyed, created_at_is in Hkeyed. simpl in Hkeyed.
    destruct (heap w !! x) as [n|] eqn:Hn; [|done]. injection Hkeyed as <-.
    apply (Hlater x n). split; [|done].
    rewrite <- Hks. apply list_elem_of_fmap. by exists (Note.created_at n, x).
Qed.

Lemma create_lists_newest_first_witness :
  NoteCreate.valid (NoteCreate.mk "D" "d") = true
  ∧ get_all demo = Some ([2; 1; 0]%nat, demo)
  ∧ (∀ l n, stored demo l n → Note.created_at n < clock demo (ticks demo))
  ∧ ∃ l w', create (NoteCreate.mk "D" "d") demo = Some (l, w')
            ∧ get_all w' = Some (l :: [2; 1; 0]%nat, w').
Proof.
  assert (∀ l n, stored demo l n → Note.created_at n < clock demo (ticks demo))
    as Hlater.
  { intros l n [Hl Hn]. unfold demo in *. simpl in *.
    repeat (apply elem_of_cons in Hl as [->|Hl];
            [simpl in Hn; injection Hn as <-; unfold tick_clock; simpl; lia|]).
    by apply elem_of_nil in Hl. }
  split; [reflexivity|]. split; [reflexivity|]. split; [exact Hlater|].
  apply (create_lists_newest_first demo (NoteCreate.mk "D" "d") [2; 1; 0]%nat).
  - reflexivity.
  - reflexivity.
  - exact Hlater.
Defined.

(** The two reads agree: [get_by_id] returns a note of the listing that
    has the identifier, and returns [None] only when no note of the
    listing has it. *)
Theorem get_by_id_agrees_with_listing w i ls :
  get_all w = Some (ls, w) →
  ∃ r, get_by_id i w = Some (r, w)
       ∧ match r with
         | Some l => l ∈ ls ∧ ∃ n, heap w !! l = Some n ∧ Note.id n = i
         | None => ∀ l n, l ∈ ls → heap w !! l = Some n → Note.id n ≠ i
         end.
Proof.
  intros Hg. pose proof (get_all_allocated _ _ _ Hg) as Hal.
  apply get_all_frame in Hg as [_ Hp].
  destruct (get_by_id_total i w Hal) as [r Hr]. exists r. split; [done|].
  rewrite get_by_id_eq in Hr. destruct r as [l|].
  - apply first_with_id_Some in Hr as (pre & post & n & E & Hn & Hid & _).
    split; [|by exists n]. rewrite Hp, E. apply elem_of_app. right. left.
  - intros l n Hl. rewrite Hp in Hl. by eapply first_with_id_None.
Qed.

Lemma get_by_id_agrees_with_listing_witness :
  get_all demo = Some ([2; 1; 0]%nat, demo)
  ∧ ∃ r, get_by_id 1%N demo = Some (r, demo)
         ∧ match r with
           | Some l => l ∈ [2; 1; 0]%nat
                       ∧ ∃ n, heap demo !! l = Some n ∧ Note.id n = 1%N
           | None => ∀ l n, l ∈ [2; 1; 0]%nat → heap demo !! l = Some n →
                            Note.id n ≠ 1%N
           end.
Proof.
  split; [reflexivity|].
  apply (get_by_id_agrees_with_listing demo 1%N [2; 1; 0]%nat). reflexivity.
Defined.

(** ** Validation ([app/models.py]) and what it guarantees of the store *)

(** A request body that [NoteUpdate] accepts gives an instance within the
    bounds, whose set fields are the members of the body, and whose dump
    [model_dump(exclude_unset=True)] gives back each member with its value
    and nothing else. *)
Theorem NoteUpdate_validation_round_trip body d :
  NoteUpdate.model_validate body = Some d →
  NoteUpdate_valid d = true
  ∧ (∀ f, f ∈ NoteUpdate.fields_set d ↔ is_Some (member f body))
  ∧ (∀ f v, (f, v) ∈ NoteUpdate.model_dump_exclude_unset d ↔
            member f body = Some (match v with
                                  | None => JNull
                                  | Some s => JString s
                                  end))
  ∧ (∀ f, member f body = None → NoteUpdate.get_field f d = None).
Proof.
  intros Hv. pose proof (λ f, model_validate_field body d f Hv) as Hf.
  split_and!.
  - unfold NoteUpdate_valid. apply andb_true_intro. split.
    + specialize (Hf Title). destruct (member Title body).
      * destruct Hf as [_ Hf]. by apply validate_field_within in Hf.
      * destruct Hf as [_ Hf]. simpl in Hf. by rewrite Hf.
    + specialize (Hf Content). destruct (member Content body).
      * destruct Hf as [_ Hf]. by apply validate_field_within in Hf.
      * destruct Hf as [_ Hf]. simpl in Hf. by rewrite Hf.
  - intros f. specialize (Hf f). destruct (member f body).
    + split; [by eexists|by intros _; apply Hf].
    + split; [by intros ?%Hf|by intros [? [=]]].
  - intros f v. rewrite elem_of_model_dump. specialize (Hf f).
    destruct (member f body) as [j|].
    + destruct Hf as [Hin Hj]. rewrite (validate_field_json _ _ _ v Hj).
      split; [by intros [_ ->]|by intros [= ->]].
    + destruct Hf as [Hnin _]. split; [by intros [?%Hnin _]|done].
  - intros f Hnone. specialize (Hf f). rewrite Hnone in Hf. apply Hf.
Qed.

Lemma NoteUpdate_validation_round_trip_witness :
  NoteUpdate.model_validate [(Title, JString "T"); (Title, JNull)]
  = Some (NoteUpdate.mk None None [Title])
  ∧ NoteUpdate_valid (NoteUpdate.mk None None [Title]) = true
  ∧ (∀ f, f ∈ [Title] ↔
          is_Some (member f [(Title, JString "T"); (Title, JNull)]))
  ∧ (∀ f v, (f, v) ∈ NoteUpdate.model_dump_exclude_unset
                       (NoteUpdate.mk None None [Title]) ↔
            member f [(Title, JString "T"); (Title, JNull)]
            = Some (match v with
                    | None => JNull
                    | Some s => JString s
                    end))
  ∧ (∀ f, member f [(Title, JString "T"); (Title, JNull)] = None →
          NoteUpdate.get_field f (NoteUpdate.mk None None [Title]) = None).
Proof.
  split; [reflexivity|].
  apply (NoteUpdate_validation_round_trip
           [(Title, JString "T"); (Title, JNull)]
           (NoteUpdate.mk None None [Title])).
  reflexivity.
Defined.

Lemma NoteCreate_model_validate_Some body d :
  NoteCreate_model_validate body = Some d ↔
  member Title body = Some (JString (NoteCreate.title d))
  ∧ member Content body = Some (JString (NoteCreate.content d))
  ∧ NoteCreate.valid d = true.
Proof.
  unfold NoteCreate_model_validate, NoteCreate.valid, validate_required.
  destruct d as [t c]. simpl. split.
  - destruct (member Title body) as [[|t'|]|]; try done.
    destruct (valid_title t') eqn:Ht; [|done].
    destruct (member Content body) as [[|c'|]|]; try done.
    destruct (valid_content c') eqn:Hc; [|done].
    intros [= <- <-]. by rewrite Ht, Hc.
  - intros (-> & -> & [-> ->]%andb_prop). done.
Qed.

(** A validated [NoteCreate] is never refused by the store: [create]
    succeeds on every store, the handler [create_note] returns the new
    note, and the note carries the strings of the request body. *)
Theorem validated_create_never_raises body d w :
  NoteCreate_model_validate body = Some d →
  ∃ l w' n,
    create d w = Some (l, w')
    ∧ create_note d w = Return l w'
    ∧ stored w' l n
    ∧ member Title body = (λ s, JString s) <$> Note.title n
    ∧ member Content body = (λ s, JString s) <$> Note.content n.
Proof.
  intros (Ht & Hc & Hv)%NoteCreate_model_validate_Some.
  exists (length (heap w)), (after_create d w), (new_note d w).
  pose proof (create_valid d w Hv) as Hcreate.
  split_and!; try done.
  - unfold create_note, try_except, hbind, call, hreturn. by rewrite Hcreate.
  - split; simpl.
    + apply elem_of_app. right. left.
    + by apply list_lookup_middle.
Qed.

Lemma validated_create_never_raises_witness :
  NoteCreate_model_validate [(Title, JString "Shopping"); (Content, JString "milk")]
  = Some (NoteCreate.mk "Shopping" "milk")
  ∧ ∃ l w' n,
      create (NoteCreate.mk "Shopping" "milk") demo = Some (l, w')
      ∧ create_note (NoteCreate.mk "Shopping" "milk") demo = Return l w'
      ∧ stored w' l n
      ∧ member Title [(Title, JString "Shopping"); (Content, JString "milk")]
        = (λ s, JString s) <$> Note.title n
      ∧ member Content [(Title, JString "Shopping"); (Content, JString "milk")]
        = (λ s, JString s) <$> Note.content n.
Proof.
  split; [reflexivity|].
  apply (validated_create_never_raises
           [(Title, JString "Shopping"); (Content, JString "milk")]
           (NoteCreate.mk "Shopping" "milk") demo).
  reflexivity.
Defined.

Lemma run_op_within o w w' :
  op_valid o = true → run_op o w = Some (tt, w') →
  (∀ l n, heap w !! l = Some n → Note_within n = true) →
  ∀ l n, heap w' !! l = Some n → Note_within n = true.
Proof.
  intros Hv Hstep Hw.
  destruct o as [d| |i|i d|i|]; simpl in *; try unfold bind at 1 in Hstep.
  - destruct (create d w) as [[l0 w0]|] eqn:Hc; [|done].
    inversion Hstep; subst. apply create_Some in Hc as (Hd & _ & ->).
    intros l n [[_ Hl]|[_ [= <-]]]%lookup_snoc_Some; [by eapply Hw|].
    unfold NoteCreate.valid in Hd. by unfold Note_within, new_note.
  - destruct (get_all w) as [[ls w0]|] eqn:Hg; [|done].
    inversion Hstep; subst. by apply get_all_frame in Hg as [-> _].
  - destruct (get_by_id i w) as [[r w0]|] eqn:Hg; [|done].
    inversion Hstep; subst. by apply get_by_id_frame in Hg as ->.
  - destruct (update i d w) as [[r w0]|] eqn:Hu; [|done].
    inversion Hstep; subst.
    apply update_Some in Hu as [(_ & -> & _)|(l0 & n0 & _ & _ & _ & Hn0 & _ & ->)];
      [done|].
    intros l n [(-> & <- & _)|[_ Hl]]%list_lookup_insert_Some; [|by eapply Hw].
    specialize (Hw _ _ Hn0). unfold NoteUpdate_valid in Hv.
    apply andb_prop in Hv as [Ht Hc]. apply andb_prop in Hw as [Ht0 Hc0].
    unfold Note_within, merged. simpl.
    by repeat case_bool_decide; apply andb_true_intro.
  - destruct (delete i w) as [[b w0]|] eqn:Hd; [|done].
    inversion Hstep; subst.
    by apply delete_Some in Hd as [(_ & -> & _)|(l0 & pre & post & _ & _ & _ & ->)].
  - unfold clear, write_notes in Hstep. by inversion Hstep; subst.
Qed.

(** When every payload is a validated instance, no note ever holds an
    empty title or content, or a title of more than 200 characters: each
    of the two fields is a string within its bounds, or [None]. *)
Theorem stored_fields_within_bounds clk ids w l n :
  reachable_valid (init clk ids) w → heap w !! l = Some n →
  Note_within n = true.
Proof.
  intros Hr. revert l n. induction Hr as [|w o w' _ IH Hv Hstep].
  - intros l n Hn. simpl in Hn. by rewrite lookup_nil in Hn.
  - by eapply run_op_within.
Qed.

Lemma stored_fields_within_bounds_witness :
  reachable_valid (init tick_clock serial_ids)
                  (after_create (NoteCreate.mk "A" "a") (init tick_clock serial_ids))
  ∧ heap (after_create (NoteCreate.mk "A" "a") (init tick_clock serial_ids)) !! 0%nat
    = Some (Note.mk (Some "A") (Some "a") 0%N 0 1)
  ∧ Note_within (Note.mk (Some "A") (Some "a") 0%N 0 1) = true.
Proof.
  assert (reachable_valid (init tick_clock serial_ids)
            (after_create (NoteCreate.mk "A" "a") (init tick_clock serial_ids)))
    as Hr.
  { apply (rv_step _ (init tick_clock serial_ids) (Create (NoteCreate.mk "A" "a")));
      [constructor|reflexivity..]. }
  split; [exact Hr|]. split; [reflexivity|].
  apply (stored_fields_within_bounds tick_clock serial_ids _ 0%nat _ Hr).
  reflexivity.
Defined.

(** ** The request handlers ([app/routes.py]) *)

(** Each handler, as a table over the outcome of its call of the store. *)
Lemma create_note_eq d w :
  create_note d w =
  match create d w with
  | Some (l, w') => Return l w'
  | None => Raise (HTTPException 500 "Failed to create note") None
  end.
Proof.
  unfold create_note, try_except, hbind, call, hreturn.
  by destruct (create d w) as [[l w']|].
Qed.

Lemma get_notes_eq w :
  get_notes w =
  match get_all w with
  | Some (ls, w') => Return ls w'
  | None => Raise (HTTPException 500 "Failed to retrieve notes") None
  end.
Proof.
  unfold get_notes, try_except, hbind, call, hreturn.
  by destruct (get_all w) as [[ls w']|].
Qed.

Lemma get_note_eq i w :
  get_note i w =
  match get_by_id i w with
  | Some (Some l, w') => Return l w'
  | Some (None, w') => Raise (HTTPException 404 "Note not found") (Some w')
  | None => Raise (HTTPException 500 "Failed to retrieve note") None
  end.
Proof.
  unfold get_note, try_except, hbind, call, hreturn, hraise.
  by destruct (get_by_id i w) as [[[l|] w']|].
Qed.

Lemma update_note_eq i d w :
  update_note i d w =
  match update i d w with
  | Some (Some l, w') => Return l w'
  | Some (None, w') => Raise (HTTPException 404 "Note not found") (Some w')
  | None => Raise (HTTPException 500 "Failed to update note") None
  end.
Proof.
  unfold update_note, try_except, hbind, call, hreturn, hraise.
  by destruct (update i d w) as [[[l|] w']|].
Qed.

Lemma delete_note_eq i w :
  delete_note i w =
  match delete i w with
  | Some (true, w') => Return tt w'
  | Some (false, w') => Raise (HTTPException 404 "Note not found") (Some w')
  | None => Raise (HTTPException 500 "Failed to delete note") None
  end.
Proof.
  unfold delete_note, try_except, hbind, call, hreturn, hraise.
  by destruct (delete i w) as [[[|] w']|].
Qed.

Lemma get_by_id_absent_iff i w :
  allocated w → get_by_id i w = Some (None, w) ↔ ¬ present w i.
Proof.
  intros Hal. rewrite get_by_id_eq. split.
  - intros Hf (l & n & [Hl Hn] & Hid). by eapply first_with_id_None.
  - intros Habs. apply first_with_id_absent; [done|].
    intros l n Hl Hn Hid. apply Habs. by exists l, n.
Qed.

Lemma get_by_id_found_stored i w l :
  get_by_id i w = Some (Some l, w) → ∃ n, stored w l n ∧ Note.id n = i.
Proof.
  rewrite get_by_id_eq.
  intros (pre & post & n & E & Hn & Hid & _)%first_with_id_Some.
  exists n. split; [|done]. split; [|done].
  rewrite E. apply elem_of_app. right. left.
Qed.

(** The deletion of a stored note, with what is left. *)
Lemma delete_stored w l n :
  store_ok w → stored w l n →
  ∃ pre post,
    _notes w = pre ++ l :: post
    ∧ delete (Note.id n) w = Some (true, after_delete (pre ++ post) w)
    ∧ store_ok (after_delete (pre ++ post) w)
    ∧ ¬ present (after_delete (pre ++ post) w) (Note.id n).
Proof.
  intros Hok Hs. pose proof (get_by_id_stored w l n Hok Hs) as Hg.
  destruct (delete_found _ _ _ Hg) as (pre & post & n0 & E & _ & _ & _ & Hd).
  exists pre, post. split_and!; try done; [by apply (store_ok_remove pre l post)|].
  pose proof (ok_nodup _ Hok) as Hnd. rewrite E in Hnd.
  apply NoDup_app in Hnd as (_ & Hpre & [Hpost _]%NoDup_cons).
  intros (l' & n' & [Hin Hn'] & Hid). simpl in *.
  assert (l' = l) as ->.
  { eapply (ok_unique _ Hok); [split; [|done]|exact Hs|done].
    rewrite E. apply elem_of_app in Hin as [?|?]; apply elem_of_app; [by left|].
    right. by right. }
  apply elem_of_app in Hin as [Hin|Hin]; [|done]. apply (Hpre l Hin). left.
Qed.

(** On every world, no handler lets an exception other than an
    [HTTPException] escape.  [create_note] and [get_notes] raise only
    their own 500; the other three raise 404 "Note not found", with the
    world as it was before the call, or their own 500. *)
Theorem handlers_raise_only_HTTPException w :
  (∀ d, match create_note d w with
        | Return _ _ => True
        | Raise e ow => e = HTTPException 500 "Failed to create note" ∧ ow = None
        end)
  ∧ match get_notes w with
    | Return _ _ => True
    | Raise e ow => e = HTTPException 500 "Failed to retrieve notes" ∧ ow = None
    end
  ∧ (∀ i, match get_note i w with
          | Return _ _ => True
          | Raise e ow =>
              e = HTTPException 404 "Note not found" ∧ ow = Some w
              ∨ e = HTTPException 500 "Failed to retrieve note" ∧ ow = None
          end)
  ∧ (∀ i d, match update_note i d w with
            | Return _ _ => True
            | Raise e ow =>
                e = HTTPException 404 "Note not found" ∧ ow = Some w
                ∨ e = HTTPException 500 "Failed to update note" ∧ ow = None
            end)
  ∧ (∀ i, match delete_note i w with
          | Return _ _ => True
          | Raise e ow =>
              e = HTTPException 404 "Note not found" ∧ ow = Some w
              ∨ e = HTTPException 500 "Failed to delete note" ∧ ow = None
          end).
Proof.
  split_and!.
  - intros d. rewrite create_note_eq. by destruct (create d w) as [[l w']|].
  - rewrite get_notes_eq. by destruct (get_all w) as [[ls w']|].
  - intros i. rewrite get_note_eq.
    destruct (get_by_id i w) as [[[l|] w']|] eqn:Hg; [done| |by right].
    left. by rewrite (get_by_id_frame _ _ _ _ Hg).
  - intros i d. rewrite update_note_eq.
    destruct (update i d w) as [[[l|] w']|] eqn:Hu; [done| |by right].
    left. by apply update_Some in Hu as [(_ & -> & _)|(? & ? & [=] & _)].
  - intros i. rewrite delete_note_eq.
    destruct (delete i w) as [[[|] w']|] eqn:Hd; [done| |by right].
    left. by apply delete_Some in Hd as [(_ & -> & _)|(? & ? & ? & [=] & _)].
Qed.

(** On a store without dangling reference no handler answers 500:
    [create_note] returns for valid fields, [get_notes] returns the
    listing, and the other three return or raise 404 "Note not found". *)
Theorem handlers_never_500 w :
  allocated w →
  (∀ d, NoteCreate.valid d = true → ∃ l w', create_note d w = Return l w')
  ∧ (∃ ls, get_notes w = Return ls w)
  ∧ (∀ i, (∃ l, get_note i w = Return l w)
          ∨ get_note i w = Raise (HTTPException 404 "Note not found") (Some w))
  ∧ (∀ i d, (∃ l w', update_note i d w = Return l w')
            ∨ update_note i d w
              = Raise (HTTPException 404 "Note not found") (Some w))
  ∧ (∀ i, (∃ w', delete_note i w = Return tt w')
          ∨ delete_note i w
            = Raise (HTTPException 404 "Note not found") (Some w)).
Proof.
  intros Hal. split_and!.
  - intros d Hv. rewrite create_note_eq, create_valid by done. by eexists _, _.
  - destruct (get_all_spec w Hal) as (ls & Hg & _).
    exists ls. by rewrite get_notes_eq, Hg.
  - intros i. rewrite get_note_eq.
    destruct (get_by_id_total i w Hal) as [[l|] ->]; [left; by exists l|by right].
  - intros i d. rewrite update_note_eq.
    destruct (get_by_id_total i w Hal) as [[l|] Hg].
    + destruct (get_by_id_found_stored _ _ _ Hg) as (n & [_ Hn] & _).
      rewrite (update_found i d l n w Hg Hn). left. by eexists _, _.
    + rewrite (update_absent i d w Hg). by right.
  - intros i. rewrite delete_note_eq.
    destruct (get_by_id_total i w Hal) as [[l|] Hg].
    + destruct (delete_found _ _ _ Hg) as (pre & post & n & _ & _ & _ & _ & ->).
      left. by eexists.
    + rewrite (delete_absent i w Hg). by right.
Qed.

Lemma handlers_never_500_witness :
  allocated demo
  ∧ (∀ d, NoteCreate.valid d = true → ∃ l w', create_note d demo = Return l w')
  ∧ (∃ ls, get_notes demo = Return ls demo)
  ∧ (∀ i, (∃ l, get_note i demo = Return l demo)
          ∨ get_note i demo
            = Raise (HTTPException 404 "Note not found") (Some demo))
  ∧ (∀ i d, (∃ l w', update_note i d demo = Return l w')
            ∨ update_note i d demo
              = Raise (HTTPException 404 "Note not found") (Some demo))
  ∧ (∀ i, (∃ w', delete_note i demo = Return tt w')
          ∨ delete_note i demo
            = Raise (HTTPException 404 "Note not found") (Some demo)).
Proof.
  split; [apply (ok_allocated _ demo_store_ok)|].
  apply (handlers_never_500 demo). apply (ok_allocated _ demo_store_ok).
Defined.

(** On such a store, [get_note], [update_note] and [delete_note] raise
    404 exactly for an identifier that no stored note has, and what
    [get_note] returns is a stored note with the identifier asked for. *)
Theorem not_found_iff_absent w i d :
  allocated w →
  (get_note i w = Raise (HTTPException 404 "Note not found") (Some w)
   ↔ ¬ present w i)
  ∧ (update_note i d w = Raise (HTTPException 404 "Note not found") (Some w)
     ↔ ¬ present w i)
  ∧ (delete_note i w = Raise (HTTPException 404 "Note not found") (Some w)
     ↔ ¬ present w i)
  ∧ (∀ l w', get_note i w = Return l w' →
             w' = w ∧ ∃ n, stored w l n ∧ Note.id n = i).
Proof.
  intros Hal. rewrite <- !(get_by_id_absent_iff i w Hal).
  rewrite get_note_eq, update_note_eq, delete_note_eq.
  destruct (get_by_id_total i w Hal) as [[l|] Hg]; rewrite Hg.
  - destruct (get_by_id_found_stored _ _ _ Hg) as (n & [Hin Hn] & Hid).
    rewrite (update_found i d l n w Hg Hn).
    destruct (delete_found _ _ _ Hg) as (pre & post & n0 & _ & _ & _ & _ & ->).
    split_and!; try done. intros l' w' [= <- <-]. split; [done|]. by exists n.
  - rewrite (update_absent i d w Hg), (delete_absent i w Hg).
    split_and!; done.
Qed.

Lemma not_found_iff_absent_witness :
  allocated demo
  ∧ (get_note 7%N demo = Raise (HTTPException 404 "Note not found") (Some demo)
     ↔ ¬ present demo 7%N)
  ∧ (update_note 7%N (NoteUpdate.mk (Some "X") None [Title]) demo
     = Raise (HTTPException 404 "Note not found") (Some demo)
     ↔ ¬ present demo 7%N)
  ∧ (delete_note 7%N demo = Raise (HTTPException 404 "Note not found") (Some demo)
     ↔ ¬ present demo 7%N)
  ∧ (∀ l w', get_note 7%N demo = Return l w' →
             w' = demo ∧ ∃ n, stored demo l n ∧ Note.id n = 7%N).
Proof.
  split; [apply (ok_allocated _ demo_store_ok)|].
  apply (not_found_iff_absent demo 7%N (NoteUpdate.mk (Some "X") None [Title])).
  apply (ok_allocated _ demo_store_ok).
Defined.

(** The whole life of a note through the handlers: [create_note] returns
    it, [get_note] with its identifier returns it, [update_note] returns
    it with the set fields of the payload and the other field kept,
    [delete_note] succeeds, and [get_note] then raises 404. *)
Theorem crud_flow w d u :
  store_ok w → NoteCreate.valid d = true → ¬ present w (uuids w (drawn w)) →
  ∃ l n n2 w1 w2 w3,
    create_note d w = Return l w1
    ∧ heap w1 !! l = Some n
    ∧ Note.title n = Some (NoteCreate.title d)
    ∧ Note.content n = Some (NoteCreate.content d)
    ∧ get_note (Note.id n) w1 = Return l w1
    ∧ update_note (Note.id n) u w1 = Return l w2
    ∧ heap w2 !! l = Some n2
    ∧ (∀ f, Note.get_field f n2 =
            if bool_decide (f ∈ NoteUpdate.fields_set u)
            then NoteUpdate.get_field f u else Note.get_field f n)
    ∧ get_note (Note.id n) w2 = Return l w2
    ∧ delete_note (Note.id n) w2 = Return tt w3
    ∧ get_note (Note.id n) w3
      = Raise (HTTPException 404 "Note not found") (Some w3).
Proof.
  intros Hok Hv Hfresh.
  set (l := length (heap w)). set (n := new_note d w).
  set (w1 := after_create d w).
  assert (stored w1 l n) as Hs1.
  { split; simpl; [apply elem_of_app; right; left|by apply list_lookup_middle]. }
  pose proof (store_ok_create d w Hok Hfresh) as Hok1. fold w1 in Hok1.
  pose proof (get_by_id_stored w1 l n Hok1 Hs1) as Hg1.
  set (n2 := Note.set_updated_at (clock w1 (ticks w1)) (merged u n)).
  set (w2 := after_update u l n w1).
  pose proof (store_ok_update u l n w1 Hok1 Hs1) as Hok2. fold w2 in Hok2.
  assert (stored w2 l n2) as Hs2.
  { split; [apply Hs1|]. simpl. apply list_lookup_insert_eq.
    eapply lookup_lt_Some, Hs1. }
  pose proof (get_by_id_stored w2 l n2 Hok2 Hs2) as Hg2.
  destruct (delete_stored w2 l n2 Hok2 Hs2) as (pre & post & E & Hd & Hok3 & Habs).
  assert (Note.id n2 = Note.id n) as Hid by done. rewrite Hid in Hg2, Hd, Habs.
  exists l, n, n2, w1, w2, (after_delete (pre ++ post) w2).
  split_and!; try done.
  - by rewrite create_note_eq, create_valid.
  - apply Hs1.
  - by rewrite get_note_eq, Hg1.
  - rewrite update_note_eq, (update_found _ u l n w1 Hg1); [done|apply Hs1].
  - apply Hs2.
  - by intros [].
  - by rewrite get_note_eq, Hg2.
  - by rewrite delete_note_eq, Hd.
  - rewrite get_note_eq.
    by rewrite (proj2 (get_by_id_absent_iff _ _ (ok_allocated _ Hok3)) Habs).
Qed.

Lemma crud_flow_witness :
  store_ok demo
  ∧ NoteCreate.valid (NoteCreate.mk "Shopping" "milk") = true
  ∧ ¬ present demo (uuids demo (drawn demo))
  ∧ ∃ l n n2 w1 w2 w3,
      create_note (NoteCreate.mk "Shopping" "milk") demo = Return l w1
      ∧ heap w1 !! l = Some n
      ∧ Note.title n = Some "Shopping"
      ∧ Note.content n = Some "milk"
      ∧ get_note (Note.id n) w1 = Return l w1
      ∧ update_note (Note.id n) (NoteUpdate.mk None (Some "milk, eggs") [Content]) w1
        = Return l w2
      ∧ heap w2 !! l = Some n2
      ∧ (∀ f, Note.get_field f n2 =
              if bool_decide (f ∈ [Content])
              then NoteUpdate.get_field f
                     (NoteUpdate.mk None (Some "milk, eggs") [Content])
              else Note.get_field f n)
      ∧ get_note (Note.id n) w2 = Return l w2
      ∧ delete_note (Note.id n) w2 = Return tt w3
      ∧ get_note (Note.id n) w3
        = Raise (HTTPException 404 "Note not found") (Some w3).
Proof.
  assert (¬ present demo (uuids demo (drawn demo))) as Hfresh.
  { intros (l & n & [Hl Hn] & Hid). unfold demo in *. simpl in *.
    repeat (apply elem_of_cons in Hl as [->|Hl];
            [simpl in Hn; injection Hn as <-; simpl in Hid; unfold serial_ids in Hid;
             lia|]).
    by apply elem_of_nil in Hl. }
  split; [apply demo_store_ok|]. split; [reflexivity|]. split; [exact Hfresh|].
  apply (crud_flow demo (NoteCreate.mk "Shopping" "milk")
           (NoteUpdate.mk None (Some "milk, eggs") [Content])).
  - apply demo_store_ok.
  - reflexivity.
  - exact Hfresh.
Defined.

(** ** The stores of a process ([app/dependencies.py]) *)

Lemma method_storage_instance {A} (m : M A) s a p p' :
  method s m p = Some (a, p') → _storage_instance p' = _storage_instance p.
Proof.
  unfold method. destruct (storages p !! s) as [ns|]; [|done].
  destruct (m (world_of p ns)) as [[a' w']|]; [|done]. by intros [= _ <-].
Qed.

(** [get_storage] is a singleton: a second call returns the store of the
    first and changes nothing, and so does a call after any method of any
    store has run. *)
Theorem get_storage_singleton p :
  let s := (get_storage p).1 in
  let p1 := (get_storage p).2 in
  get_storage p1 = (s, p1)
  ∧ ∀ A (m : M A) s0 a p2,
      method s0 m p1 = Some (a, p2) → get_storage p2 = (s, p2).
Proof.
  intros s p1.
  assert (_storage_instance p1 = Some s) as Hglobal.
  { unfold s, p1, get_storage. by destruct (_storage_instance p) as [s'|] eqn:E. }
  split.
  - unfold get_storage at 1. by rewrite Hglobal.
  - intros A m s0 a p2 Hm. unfold get_storage.
    by rewrite (method_storage_instance m s0 a p1 p2 Hm), Hglobal.
Qed.

(** After [reset_storage], [get_storage] returns a store that did not
    exist before; it is empty, and every store that existed keeps its
    notes. *)
Theorem reset_gives_fresh_empty_store p :
  let s := (get_storage (reset_storage p)).1 in
  let p' := (get_storage (reset_storage p)).2 in
  s = length (storages p)
  ∧ (∀ s0 ns, storages p !! s0 = Some ns → s0 ≠ s ∧ storages p' !! s0 = Some ns)
  ∧ p_heap p' = p_heap p
  ∧ method s get_all p' = Some ([], p')
  ∧ (∀ i, method s (get_by_id i) p' = Some (None, p')).
Proof.
  unfold get_storage, reset_storage. simpl. split_and!; try done.
  - intros s0 ns Hs0. pose proof (lookup_lt_Some _ _ _ Hs0). split; [lia|].
    by apply lookup_app_l_Some.
  - unfold method. simpl. rewrite list_lookup_middle by done. simpl.
    by rewrite list_insert_id by (by apply list_lookup_middle).
  - intros i. unfold method. simpl. rewrite list_lookup_middle by done. simpl.
    by rewrite list_insert_id by (by apply list_lookup_middle).
Qed.

(** What an operation leaves alone: the cells that the store does not
    hold. *)
Lemma effect_frame w w' :
  effect w w' → allocated w →
  allocated w'
  ∧ (∀ l, l ∈ _notes w' → l ∈ _notes w ∨ heap w !! l = None)
  ∧ (∀ l, is_Some (heap w !! l) → l ∉ _notes w → heap w' !! l = heap w !! l).
Proof.
  intros Heff Hal.
  destruct Heff as [|d Hv|d l0 n0 [Hin Hn0]|pre l0 post E|]; simpl.
  - split_and!; [done|by left|done].
  - split_and!.
    + intros l [Hl| ->%list_elem_of_singleton]%elem_of_app; simpl.
      * destruct (Hal l Hl) as [n Hn]. exists n. by apply lookup_app_l_Some.
      * eexists. by apply list_lookup_middle.
    + intros l [Hl| ->%list_elem_of_singleton]%elem_of_app; [by left|].
      right. by apply lookup_ge_None.
    + intros l [n Hn] _. by rewrite (lookup_app_l_Some _ _ _ _ Hn).
  - split_and!.
    + intros l Hl. simpl. apply list_lookup_insert_is_Some. by apply Hal.
    + by left.
    + intros l _ Hl. apply list_lookup_insert_ne. by intros ->.
  - assert (∀ l, l ∈ pre ++ post → l ∈ _notes w) as Hsub.
    { intros l Hl. rewrite E.
      apply elem_of_app in Hl as [?|?]; apply elem_of_app; [by left|].
      right. by right. }
    split_and!; [|by left; apply Hsub|done].
    intros l Hl. by apply Hal, Hsub.
  - split_and!; [|by intros l ?%elem_of_nil|done].
    by intros l ?%elem_of_nil.
Qed.

(** The stores of a process do not interfere: an operation on one store
    keeps the stores separate, and leaves the list of every other store
    and the fields of each of its notes as they were. *)
Theorem stores_do_not_interfere p s o p' :
  process_ok p → method s (run_op o) p = Some (tt, p') →
  process_ok p'
  ∧ ∀ s0 ns, s0 ≠ s → storages p !! s0 = Some ns →
      storages p' !! s0 = Some ns
      ∧ ∀ l, l ∈ ns → p_heap p' !! l = p_heap p !! l.
Proof.
  intros [Hal Hsep]. unfold method.
  destruct (storages p !! s) as [ns_s|] eqn:Hs; [|done].
  destruct (run_op o (world_of p ns_s)) as [[[] w']|] eqn:Hstep; [|done].
  intros [= <-]. pose proof (lookup_lt_Some _ _ _ Hs) as Hlt.
  apply run_op_effect in Hstep.
  assert (allocated (world_of p ns_s)) as Hal_s.
  { intros l Hl. by apply (Hal s ns_s). }
  destruct (effect_frame _ _ Hstep Hal_s) as (Hal' & Hnew & Hframe).
  simpl in Hnew, Hframe.
  assert (∀ s0 ns, s0 ≠ s →
            (<[s := _notes w']> (storages p) !! s0 = Some ns
             ↔ storages p !! s0 = Some ns)) as Hother.
  { intros s0 ns Hne. by rewrite list_lookup_insert_ne. }
  assert (<[s := _notes w']> (storages p) !! s = Some (_notes w')) as Hself.
  { by apply list_lookup_insert_eq. }
  assert (∀ s0 ns l, s0 ≠ s → storages p !! s0 = Some ns → l ∈ ns →
            l ∉ _notes w') as Hapart.
  { intros s0 ns l Hne Hs0 Hl Hl'. destruct (Hnew l Hl') as [Hold|Hnone].
    - by apply (Hsep s0 s ns ns_s l).
    - destruct (Hal s0 ns l Hs0 Hl) as [n Hn]. congruence. }
  split; [split|]; simpl.
  - intros s0 ns l Hs0 Hl. destruct (decide (s0 = s)) as [->|Hne].
    + rewrite Hself in Hs0. injection Hs0 as <-. by apply Hal'.
    + apply Hother in Hs0; [|done].
      apply (effect_heap_alloc _ _ _ Hstep). by apply (Hal s0 ns l).
  - intros s1 s2 ns1 ns2 l Hne H1 H2 Hl.
    destruct (decide (s1 = s)) as [->|Hne1], (decide (s2 = s)) as [->|Hne2];
      try done.
    + rewrite Hself in H1. injection H1 as <-. apply Hother in H2; [|done].
      intros Hl2. by apply (Hapart s2 ns2 l).
    + rewrite Hself in H2. injection H2 as <-. apply Hother in H1; [|done].
      by apply (Hapart s1 ns1 l).
    + apply Hother in H1; [|done]. apply Hother in H2; [|done].
      by apply (Hsep s1 s2 ns1 ns2 l).
  - intros s0 ns Hne Hs0. split; [by apply Hother|].
    intros l Hl. apply Hframe; [by apply (Hal s0 ns l)|].
    by apply (Hsep s0 s ns ns_s l).
Qed.

Lemma two_stores_ok : process_ok two_stores.
Proof.
  split; simpl.
  - intros [|[|s]] ns l; simpl; try done; intros [= <-] ->%list_elem_of_singleton;
      by eexists.
  - intros [|[|s]] [|[|s']] ns ns' l Hne; simpl; try done;
      intros [= <-] [= <-] ->%list_elem_of_singleton [=]%list_elem_of_singleton.
Qed.

Lemma stores_do_not_interfere_witness :
  process_ok two_stores
  ∧ method 1 (run_op (Update 1%N (NoteUpdate.mk (Some "B2") None [Title])))
           two_stores
    = Some (tt, two_stores_updated)
  ∧ process_ok two_stores_updated
  ∧ ∀ s0 ns, s0 ≠ 1%nat → storages two_stores !! s0 = Some ns →
      storages two_stores_updated !! s0 = Some ns
      ∧ ∀ l, l ∈ ns → p_heap two_stores_updated !! l = p_heap two_stores !! l.
Proof.
  split; [apply two_stores_ok|]. split; [reflexivity|].
  apply (stores_do_not_interfere two_stores 1
           (Update 1%N (NoteUpdate.mk (Some "B2") None [Title]))
           two_stores_updated).
  - apply two_stores_ok.
  - reflexivity.
Defined.

(** ** The settings ([app/config.py]) *)

Lemma split_aux_concat sep s :
  String.concat (String sep EmptyString)
                ((split_aux sep s).1 :: (split_aux sep s).2) = s.
Proof.
  induction s as [|c s IH]; [done|]. simpl split_aux.
  destruct (split_aux sep s) as [piece pieces]. simpl in IH.
  destruct (Ascii.eqb_spec c sep) as [->|Hne]; simpl.
  - by rewrite <- IH.
  - destruct pieces; simpl in *; by rewrite <- IH.
Qed.

Lemma split_aux_pieces sep s :
  occurrences sep (split_aux sep s).1 = 0%nat
  ∧ Forall (λ piece, occurrences sep piece = 0%nat) (split_aux sep s).2
  ∧ length (split_aux sep s).2 = occurrences sep s.
Proof.
  induction s as [|c s (IH1 & IH2 & IH3)]; [by repeat constructor|].
  simpl. destruct (split_aux sep s) as [piece pieces]. simpl in *.
  destruct (Ascii.eqb_spec c sep) as [->|Hne]; simpl.
  - split_and!; [done|by constructor|by rewrite IH3].
  - split_and!; [|done|done].
    by destruct (Ascii.eqb_spec c sep).
Qed.

(** Whenever [Settings()] returns, [ALLOWED_ORIGINS] is the text of the
    environment variable (or "*") cut at its commas: it is never empty,
    no origin contains a comma, there is one origin more than commas, and
    joined by commas the origins give the text back.  Nothing is
    stripped. *)
Theorem allowed_origins_split (int : string → option Z) environ s :
  Settings_init int environ = Some s →
  ALLOWED_ORIGINS s ≠ []
  ∧ String.concat "," (ALLOWED_ORIGINS s) = getenv environ "ALLOWED_ORIGINS" "*"
  ∧ Forall (λ origin, occurrences ","%char origin = 0%nat) (ALLOWED_ORIGINS s)
  ∧ length (ALLOWED_ORIGINS s)
    = S (occurrences ","%char (getenv environ "ALLOWED_ORIGINS" "*"))
  ∧ (environ !! "ALLOWED_ORIGINS" = None → ALLOWED_ORIGINS s = ["*"]).
Proof.
  unfold Settings_init.
  destruct (int (getenv environ "PORT" "8000")) as [port|]; [|done].
  intros [= <-]. simpl. set (text := getenv environ "ALLOWED_ORIGINS" "*").
  pose proof (split_aux_concat ","%char text) as Hc.
  pose proof (split_aux_pieces ","%char text) as (H1 & H2 & H3).
  unfold split. destruct (split_aux ","%char text) as [piece pieces] eqn:E.
  simpl in *. split_and!; try done.
  - by constructor.
  - by rewrite H3.
  - intros Hunset. unfold text, getenv in E. rewrite Hunset in E.
    by injection E as <- <-.
Qed.

Lemma allowed_origins_split_witness :
  Settings_init int_8000 origins_environ = Some origins_settings
  ∧ ALLOWED_ORIGINS origins_settings ≠ []
  ∧ String.concat "," (ALLOWED_ORIGINS origins_settings)
    = getenv origins_environ "ALLOWED_ORIGINS" "*"
  ∧ Forall (λ origin, occurrences ","%char origin = 0%nat)
           (ALLOWED_ORIGINS origins_settings)
  ∧ length (ALLOWED_ORIGINS origins_settings)
    = S (occurrences ","%char (getenv origins_environ "ALLOWED_ORIGINS" "*"))
  ∧ (origins_environ !! "ALLOWED_ORIGINS" = None →
     ALLOWED_ORIGINS origins_settings = ["*"]).
Proof.
  split; [by vm_compute|].
  apply (allowed_origins_split int_8000 origins_environ origins_settings).
  by vm_compute.
Defined.
